(** * Batch edits of a tree-sitter document: [ts::Tree::edit]

    A shallow embedding of the batch-edit coordinator of the C++ wrapper
    ([src/edit_helper.cpp], the [Point]/[Location]/[Range] operators and
    [Tree::edit] of [src/tree_sitter.cpp]) together with the properties
    its specification states about it.

    Conventions.
    - [std::uint32_t] values are integers in [0, 2^32); every operation that
      the C++ performs in [std::uint32_t] is followed by [wrap32], every
      conversion to [int] by [to_int] (two's complement).
      [long] and [std::size_t] are 64 bits wide and never wrap at the sizes
      a buffer can have; where the C++ leaves a signed overflow of [int]
      open ([_update_adjustment]), the model wraps around.
    - [std::string] is a list of bytes ([list ascii]).
    - A C++ function that can throw returns a [result]; a function that
      mutates an argument returns the new value of that argument.
    - The tree-sitter C library (the incremental parser) is a parameter of
      the development: section [Engine]. *)

From Stdlib Require Import ZArith List Bool Ascii Lia Permutation Sorted.
From Stdlib Require String.
Import String.StringSyntax.
From Equations Require Import Equations.
Import ListNotations.

Open Scope Z_scope.
Open Scope string_scope.

(** ** Machine integers *)

(** Conversion to [std::uint32_t]. *)
Definition wrap32 (z : Z) : Z := z mod 2 ^ 32.

(** Conversion to [int] (32 bits, two's complement). *)
Definition to_int (z : Z) : Z := (z + 2 ^ 31) mod 2 ^ 32 - 2 ^ 31.

(** ** Data model ([include/ts/tree_sitter.hpp]) *)

Definition std_string : Type := list ascii.

Record Point : Type := { row : Z; column : Z }.

Record Location : Type := { point : Point; byte : Z }.

(** [end] is a keyword of Rocq, hence [end_]. *)
Record Range : Type := { start : Location; end_ : Location }.

Record Edit : Type := { range : Range; replacement : std_string }.

(** The field [replacement] of the C++ struct is [applied_replacement] here:
    [Edit] already owns the name. *)
Record AppliedEdit : Type := {
  before : Range;
  after : Range;
  old_source : std_string;
  applied_replacement : std_string
}.

Record EditResult : Type := {
  changed_ranges : list Range;
  applied_edits : list AppliedEdit
}.

(** ** Comparison operators ([src/tree_sitter.cpp], lines 92-120) *)

Module Point_ops.
Definition eqb (lhs rhs : Point) : bool :=
  (row lhs =? row rhs) && (column lhs =? column rhs).
End Point_ops.

Module Location_ops.
Definition eqb (lhs rhs : Location) : bool :=
  Point_ops.eqb (point lhs) (point rhs) && (byte lhs =? byte rhs).
Definition ltb (lhs rhs : Location) : bool := byte lhs <? byte rhs.
Definition leb (lhs rhs : Location) : bool := byte lhs <=? byte rhs.
Definition gtb (lhs rhs : Location) : bool := byte lhs >? byte rhs.
Definition geb (lhs rhs : Location) : bool := byte lhs >=? byte rhs.
End Location_ops.

(** ** [Range::overlaps] ([src/tree_sitter.cpp], lines 126-152)

    The C++ method calls itself with the arguments exchanged when
    [this->start > other.start]; after the exchange the test is false, so the
    recursion is at most one call deep. *)

Definition inspect {A : Type} (a : A) : { b : A | a = b } := exist _ a eq_refl.

Definition swap_measure (this other : Range) : nat :=
  if Location_ops.gtb (start this) (start other) then 1%nat else 0%nat.

Equations? overlaps (this other : Range) : bool
  by wf (swap_measure this other) lt :=
  overlaps this other with inspect (Location_ops.gtb (start this) (start other)) := {
    | exist _ true _ => overlaps other this
    | exist _ false _ => Location_ops.gtb (end_ this) (start other) }.
Proof.
  unfold swap_measure. rewrite e.
  unfold Location_ops.gtb in *.
  destruct (byte (start other) >? byte (start this)) eqn:E; [ | lia ].
  rewrite Z.gtb_lt in e, E. lia.
Qed.

(** ** Exceptions and fallible computations *)

(** The exceptions [Tree::edit] can leave with: the three subclasses of
    [EditException], [ParseFailureException] of [Parser::parse_string] and
    [std::out_of_range] of [std::string::substr]/[replace].
    [null_tree_dereference] stands for handing a null [TSTree*] to
    [ts_tree_edit], which the C library does not define. *)
Inductive exception : Type :=
| ZeroSizedEditException
| MultilineEditException
| OverlappingEditException
| ParseFailureException
| out_of_range
| null_tree_dereference.

Inductive result (A : Type) : Type :=
| Ok (a : A)
| Throw (e : exception).
Arguments Ok {A} a.
Arguments Throw {A} e.

Definition bind {A B : Type} (m : result A) (k : A -> result B) : result B :=
  match m with
  | Ok a => k a
  | Throw e => Throw e
  end.

Notation "x <- m ;; k" := (bind m (fun x => k))
  (at level 61, m at next level, right associativity).
Notation "' p <- m ;; k" := (bind m (fun p => k))
  (at level 61, p pattern, m at next level, right associativity).
Notation "m ;;; k" := (bind m (fun _ => k))
  (at level 61, right associativity).

(** ** [std::string] operations used by the patcher *)

Definition newline : ascii := Ascii.ascii_of_nat 10.

(** [s.find('\n') != std::string::npos] *)
Definition contains_newline (s : std_string) : bool :=
  existsb (Ascii.eqb newline) s.

Definition size (s : std_string) : Z := Z.of_nat (length s).

(** [s.substr(pos, n)]: throws when [pos > size()], otherwise the at most [n]
    bytes from [pos] on. *)
Definition substr (s : std_string) (pos n : Z) : result std_string :=
  if pos >? size s then Throw out_of_range
  else Ok (firstn (Z.to_nat n) (skipn (Z.to_nat pos) s)).

(** [s.replace(pos, n, str)]: throws when [pos > size()], otherwise replaces
    the at most [n] bytes from [pos] on by [str]. *)
Definition replace (s : std_string) (pos n : Z) (str : std_string) : result std_string :=
  if pos >? size s then Throw out_of_range
  else Ok (firstn (Z.to_nat pos) s ++ str ++ skipn (Z.to_nat n) (skipn (Z.to_nat pos) s)).

(** ** EditValidator ([src/edit_helper.cpp], lines 104-138) *)

Definition is_zero_sized (edit : Edit) : bool :=
  Location_ops.eqb (start (range edit)) (end_ (range edit)).

Definition is_multiline (edit : Edit) : bool :=
  negb (row (point (start (range edit))) =? row (point (end_ (range edit))))
  || contains_newline (replacement edit).

Definition _forbid_zero_sized_edit (edit : Edit) : result unit :=
  if is_zero_sized edit then Throw ZeroSizedEditException else Ok tt.

Definition _forbid_multiline_edit (edit : Edit) : result unit :=
  if is_multiline edit then Throw MultilineEditException else Ok tt.

(** The inner loop [for (int j = 0; j < edits.size(); ++j)] at iteration [j],
    [rest] being [edits[j..]]. *)
Fixpoint _forbid_overlap (i : nat) (edit1 : Edit) (j : nat) (rest : list Edit)
  : result unit :=
  match rest with
  | [] => Ok tt
  | edit2 :: rest' =>
      if Nat.eqb i j then _forbid_overlap i edit1 (S j) rest'
      else if overlaps (range edit1) (range edit2) then Throw OverlappingEditException
      else _forbid_overlap i edit1 (S j) rest'
  end.

(** The outer loop [for (int i = 0; i < edits.size(); ++i)] at iteration [i],
    [rest] being [edits[i..]]. *)
Fixpoint _check_edits_from (edits : list Edit) (i : nat) (rest : list Edit)
  : result unit :=
  match rest with
  | [] => Ok tt
  | edit1 :: rest' =>
      _forbid_zero_sized_edit edit1 ;;;
      _forbid_multiline_edit edit1 ;;;
      _forbid_overlap i edit1 0 edits ;;;
      _check_edits_from edits (S i) rest'
  end.

Definition _check_edits (edits : list Edit) : result unit :=
  _check_edits_from edits 0 edits.

(** ** EditOrderer ([src/edit_helper.cpp], lines 198-200)

    [std::sort] with the comparator of the source. The standard leaves the
    order of elements with equal keys open (and asks for a strict order, which
    [<=] is only when no two keys are equal); the model is the insertion sort
    that the library runs on short vectors: elements are taken from left to
    right and each is moved in front of the elements of the sorted prefix that
    the comparator puts it before. Lemma [sorted_unique] below shows that with
    pairwise different start bytes the result is the same for every sorting
    procedure. With equal start bytes the library may order the ties another
    way on longer vectors, or not return at all; the properties below use of
    the sort only that it returns the batch permuted and ascending, and its
    exact result where the start bytes differ. *)

Definition edit_comp (edit1 edit2 : Edit) : bool :=
  byte (start (range edit1)) <=? byte (start (range edit2)).

Fixpoint sort_insert (comp : Edit -> Edit -> bool) (val : Edit) (sorted : list Edit)
  : list Edit :=
  match sorted with
  | [] => [val]
  | x :: sorted' =>
      if comp val x then val :: sorted else x :: sort_insert comp val sorted'
  end.

Definition std_sort (comp : Edit -> Edit -> bool) (edits : list Edit) : list Edit :=
  fold_left (fun sorted val => sort_insert comp val sorted) edits [].

(** ** CoordinateAdjuster ([src/edit_helper.cpp], lines 140-168) *)

Record Adjustment : Type := {
  last_point : Point;
  last_width_change : Z;
  cumulative_byte_change : Z
}.

(** [Adjustment adjustment{}] *)
Definition Adjustment_init : Adjustment :=
  {| last_point := {| row := 0; column := 0 |};
     last_width_change := 0;
     cumulative_byte_change := 0 |}.

Definition shift_column (d : Z) (l : Location) : Location :=
  {| point := {| row := row (point l); column := wrap32 (column (point l) + d) |};
     byte := byte l |}.

Definition shift_byte (d : Z) (l : Location) : Location :=
  {| point := point l; byte := wrap32 (byte l + d) |}.

Definition _adjust_edit (edit : Edit) (adjustment : Adjustment) : Edit :=
  let r := range edit in
  let r :=
    if negb (last_width_change adjustment =? 0)
       && (row (last_point adjustment) =? row (point (start r)))
    then {| start := shift_column (last_width_change adjustment) (start r);
            end_ := shift_column (last_width_change adjustment) (end_ r) |}
    else r in
  {| range := {| start := shift_byte (cumulative_byte_change adjustment) (start r);
                 end_ := shift_byte (cumulative_byte_change adjustment) (end_ r) |};
     replacement := replacement edit |}.

Definition _update_adjustment (adjustment : Adjustment) (applied_edit : AppliedEdit)
  (last_point : Point) : Adjustment :=
  let before_width :=
    to_int (wrap32 (column (point (end_ (before applied_edit)))
                    - column (point (start (before applied_edit))))) in
  let after_width :=
    to_int (wrap32 (column (point (end_ (after applied_edit)))
                    - column (point (start (after applied_edit))))) in
  let byte_change :=
    to_int (wrap32 (byte (end_ (after applied_edit))
                    - byte (end_ (before applied_edit)))) in
  {| last_point := last_point;
     last_width_change := to_int (after_width - before_width);
     cumulative_byte_change := to_int (cumulative_byte_change adjustment + byte_change) |}.

(** ** Structs of the tree-sitter C interface *)

Record TSPoint : Type := { ts_row : Z; ts_column : Z }.

Record TSInputEdit : Type := {
  start_byte : Z;
  old_end_byte : Z;
  new_end_byte : Z;
  start_point : TSPoint;
  old_end_point : TSPoint;
  new_end_point : TSPoint
}.

Record TSRange : Type := {
  range_start_point : TSPoint;
  range_end_point : TSPoint;
  range_start_byte : Z;
  range_end_byte : Z
}.

Definition _point (p : TSPoint) : Point :=
  {| row := ts_row p; column := ts_column p |}.

Definition _location (p : TSPoint) (b : Z) : Location :=
  {| point := _point p; byte := b |}.

Definition _range (r : TSRange) : Range :=
  {| start := _location (range_start_point r) (range_start_byte r);
     end_ := _location (range_end_point r) (range_end_byte r) |}.

(** ** Predicates of the specification *)

Definition mkLocation (r c b : Z) : Location :=
  {| point := {| row := r; column := c |}; byte := b |}.

Definition mkRange (s e : Location) : Range := {| start := s; end_ := e |}.

Definition start_byte_of (edit : Edit) : Z := byte (start (range edit)).

(** A range that holds at least one byte. *)
Definition nonempty (r : Range) : Prop := byte (start r) < byte (end_ r).

(** The invariant of the data model: [start <= end], and the two ends denote
    the same position when their byte offsets agree. *)
Definition well_formed (r : Range) : Prop :=
  byte (start r) <= byte (end_ r)
  /\ (byte (start r) = byte (end_ r) -> point (start r) = point (end_ r)).

(** What one iteration of the outer loop checks of [edits[i]]. *)
Definition passes (edits : list Edit) (i : nat) (edit1 : Edit) : Prop :=
  is_zero_sized edit1 = false
  /\ is_multiline edit1 = false
  /\ (forall j edit2, nth_error edits j = Some edit2 -> i <> j ->
                      overlaps (range edit1) (range edit2) = false).

Definition ascending : list Edit -> Prop :=
  StronglySorted (fun e1 e2 => start_byte_of e1 <= start_byte_of e2).

Definition strictly_ascending : list Edit -> Prop :=
  StronglySorted (fun e1 e2 => start_byte_of e1 < start_byte_of e2).

(** The first edit that fails a check is multiline without being
    zero-sized: what [_check_edits] reports as [MultilineEditException]. *)
Definition first_failure_is_multiline (edits : list Edit) : Prop :=
  exists i edit,
    nth_error edits i = Some edit
    /\ is_zero_sized edit = false
    /\ is_multiline edit = true
    /\ (forall k e, (k < i)%nat -> nth_error edits k = Some e -> passes edits k e).

(** The edit lies in the buffer [source], holds at least one byte, counts
    its columns in bytes, and the sizes involved stay below [2^30], so that
    no conversion of the adjuster or the patcher wraps around. *)
Definition fits (source : std_string) (edit : Edit) : Prop :=
  0 <= byte (start (range edit)) < byte (end_ (range edit))
  /\ byte (end_ (range edit)) <= size source
  /\ 0 <= column (point (start (range edit))) < 2 ^ 30
  /\ column (point (end_ (range edit))) - column (point (start (range edit)))
     = byte (end_ (range edit)) - byte (start (range edit))
  /\ size source < 2 ^ 30
  /\ size (replacement edit) < 2 ^ 30.

(** [len(replacement) - len(old)] of a record. *)
Definition byte_delta (a : AppliedEdit) : Z :=
  size (applied_replacement a) - size (old_source a).

(** The reading of claim C2 word for word: the byte offsets of [after] are
    those of [before] plus the byte deltas of the earlier records, and the
    columns of [after] are those of [before]. *)
Definition shifted_by_earlier_only (earlier : list AppliedEdit) (a : AppliedEdit) : Prop :=
  let delta := fold_right Z.add 0 (map byte_delta earlier) in
  byte (start (after a)) = byte (start (before a)) + delta
  /\ byte (end_ (after a)) = byte (end_ (before a)) + delta
  /\ column (point (start (after a))) = column (point (start (before a)))
  /\ column (point (end_ (after a))) = column (point (end_ (before a))).

(** What [_apply_edit] computes when it returns: the adjusted range lies at
    or before the end of the buffer and the tree is not null. *)
Definition applied (edit : Edit) (source : std_string) : AppliedEdit :=
  let old_size := wrap32 (byte (end_ (range edit)) - byte (start (range edit))) in
  let end_byte_diff := size (replacement edit) - old_size in
  {| before := range edit;
     after :=
       {| start := start (range edit);
          end_ :=
            {| point :=
                 {| row := row (point (end_ (range edit)));
                    column := wrap32 (column (point (end_ (range edit))) + end_byte_diff) |};
               byte := wrap32 (byte (end_ (range edit)) + end_byte_diff) |} |};
     old_source :=
       firstn (Z.to_nat old_size) (skipn (Z.to_nat (byte (start (range edit)))) source);
     applied_replacement := replacement edit |}.

Definition patched (edit : Edit) (source : std_string) : std_string :=
  let old_size := wrap32 (byte (end_ (range edit)) - byte (start (range edit))) in
  firstn (Z.to_nat (byte (start (range edit)))) source
  ++ replacement edit
  ++ skipn (Z.to_nat old_size) (skipn (Z.to_nat (byte (start (range edit)))) source).

(** The records of a returned result, none for a throw. *)
Definition applied_edits_of {T : Type} (r : T * result EditResult) : list AppliedEdit :=
  match snd r with
  | Ok res => applied_edits res
  | Throw _ => []
  end.

(** ** Notation for concrete buffers and edits *)

Definition bytes (s : String.string) : std_string := String.list_ascii_of_string s.

(** The edit that replaces the [len] bytes at row [r], column [c], byte [b]
    by [s]. *)
Definition replace_at (r c b len : Z) (s : String.string) : Edit :=
  {| range := mkRange (mkLocation r c b) (mkLocation r (c + len) (b + len));
     replacement := bytes s |}.

(** ** The remaining operators of [src/tree_sitter.cpp]

    [operator<] to [operator>=] of [Point] (lines 96-107), [operator==] of
    [Range], [Edit], [AppliedEdit] and [EditResult] (lines 153-168 and
    366-384); each [operator!=] is the negation of [operator==]. *)

Module Point_order.
Definition ltb (lhs rhs : Point) : bool :=
  (row lhs <? row rhs) || ((row lhs =? row rhs) && (column lhs <? column rhs)).
Definition leb (lhs rhs : Point) : bool :=
  (row lhs <? row rhs) || ((row lhs =? row rhs) && (column lhs <=? column rhs)).
Definition gtb (lhs rhs : Point) : bool :=
  (row lhs >? row rhs) || ((row lhs =? row rhs) && (column lhs >? column rhs)).
Definition geb (lhs rhs : Point) : bool :=
  (row lhs >? row rhs) || ((row lhs =? row rhs) && (column lhs >=? column rhs)).
Definition neqb (lhs rhs : Point) : bool := negb (Point_ops.eqb lhs rhs).
End Point_order.

(** [operator==] of [std::vector] and of [std::string]: the same size and
    equal elements, position by position. *)
Definition vector_eqb {A : Type} (eqb : A -> A -> bool) (lhs rhs : list A) : bool :=
  Nat.eqb (length lhs) (length rhs)
  && forallb (fun p => eqb (fst p) (snd p)) (combine lhs rhs).

Definition string_eqb : std_string -> std_string -> bool := vector_eqb Ascii.eqb.

Module Range_ops.
Definition eqb (lhs rhs : Range) : bool :=
  Location_ops.eqb (start lhs) (start rhs) && Location_ops.eqb (end_ lhs) (end_ rhs).
Definition neqb (lhs rhs : Range) : bool := negb (eqb lhs rhs).
End Range_ops.

Module Edit_ops.
Definition eqb (lhs rhs : Edit) : bool :=
  Range_ops.eqb (range lhs) (range rhs)
  && string_eqb (replacement lhs) (replacement rhs).
Definition neqb (lhs rhs : Edit) : bool := negb (eqb lhs rhs).
End Edit_ops.

Module AppliedEdit_ops.
Definition eqb (self other : AppliedEdit) : bool :=
  Range_ops.eqb (before self) (before other)
  && Range_ops.eqb (after self) (after other)
  && string_eqb (old_source self) (old_source other)
  && string_eqb (applied_replacement self) (applied_replacement other).
Definition neqb (self other : AppliedEdit) : bool := negb (eqb self other).
End AppliedEdit_ops.

Module EditResult_ops.
Definition eqb (self other : EditResult) : bool :=
  vector_eqb AppliedEdit_ops.eqb (applied_edits self) (applied_edits other)
  && vector_eqb Range_ops.eqb (changed_ranges self) (changed_ranges other).
Definition neqb (self other : EditResult) : bool := negb (eqb self other).
End EditResult_ops.

(** Two edits whose ranges do not overlap, whichever is asked. *)
Definition disjoint (e1 e2 : Edit) : Prop :=
  overlaps (range e1) (range e2) = false /\ overlaps (range e2) (range e1) = false.

(** The edit that takes a record back: it replaces the range [after] by the
    old text. *)
Definition undo (a : AppliedEdit) : Edit :=
  {| range := after a; replacement := old_source a |}.

(** The notification [_apply_edit] sends for an edit and its record. *)
Definition notifies (input_edit : TSInputEdit) (a : AppliedEdit) : Prop :=
  start_byte input_edit = byte (start (after a))
  /\ new_end_byte input_edit = byte (end_ (after a))
  /\ _point (start_point input_edit) = point (start (after a))
  /\ _point (new_end_point input_edit) = point (end_ (after a))
  /\ ts_row (old_end_point input_edit) = row (point (end_ (after a))).

(** An engine to run the model on concrete inputs: a tree is the list of the
    edits it was told of, the parser returns the empty list and reports no
    changed range. *)
Module Trace.
Definition TSTree : Type := list TSInputEdit.
Definition TSParser : Type := unit.
Definition ts_tree_edit (t : TSTree) (input_edit : TSInputEdit) : TSTree :=
  t ++ [input_edit].
Definition ts_parser_parse_string (_ : TSParser) (_ : option TSTree) (_ : std_string)
  : option TSTree := Some [].
Definition ts_tree_get_changed_ranges (_ : option TSTree) (_ : TSTree) : list TSRange := [].
End Trace.

Section Engine.

(** The incremental parser behind the wrapper: the state of a [TSTree]
    object, of a [TSParser], and the three library calls [edit_tree] makes. *)
Variable TSTree : Type.
Variable TSParser : Type.
Variable ts_tree_edit : TSTree -> TSInputEdit -> TSTree.
Variable ts_parser_parse_string : TSParser -> option TSTree -> std_string -> option TSTree.
Variable ts_tree_get_changed_ranges : option TSTree -> TSTree -> list TSRange.

(** [class Tree]: the owning pointer [tree] ([None] is the null pointer),
    the copy of the source and the parser. *)
Record Tree : Type := {
  tree : option TSTree;
  source_ : std_string;
  parser_ : TSParser
}.

Definition raw (this : Tree) : option TSTree := tree this.
Definition source (this : Tree) : std_string := source_ this.
Definition parser (this : Tree) : TSParser := parser_ this.

(** ** SourcePatcher: [_apply_edit] ([src/edit_helper.cpp], lines 8-56)

    Returns the record together with the new states of [*tree] and
    [source]. *)
Definition _apply_edit (edit : Edit) (tree : option TSTree) (source : std_string)
  : result (AppliedEdit * option TSTree * std_string) :=
  let old_size := wrap32 (byte (end_ (range edit)) - byte (start (range edit))) in
  old_source <- substr source (byte (start (range edit))) old_size ;;
  source <- replace source (byte (start (range edit))) old_size (replacement edit) ;;
  let end_byte_diff := size (replacement edit) - old_size in
  let before := range edit in
  let new_column := wrap32 (column (point (end_ before)) + end_byte_diff) in
  let new_byte := wrap32 (byte (end_ before) + end_byte_diff) in
  let after :=
    {| start := start (range edit);
       end_ := {| point := {| row := row (point (end_ (range edit)));
                              column := new_column |};
                  byte := new_byte |} |} in
  let input_edit :=
    {| start_byte := byte (start before);
       old_end_byte := byte (end_ before);
       new_end_byte := byte (end_ after);
       start_point :=
         {| ts_row := row (point (start before));
            ts_column := column (point (start before)) |};
       old_end_point :=
         {| ts_row := row (point (end_ before));
            ts_column := column (point (end_ before)) |};
       new_end_point :=
         {| ts_row := row (point (end_ after));
            ts_column := column (point (end_ after)) |} |} in
  match tree with
  | None => Throw null_tree_dereference
  | Some t =>
      Ok ({| before := before;
             after := after;
             old_source := old_source;
             applied_replacement := replacement edit |},
          Some (ts_tree_edit t input_edit),
          source)
  end.

(** ** [_apply_all_edits] ([src/edit_helper.cpp], lines 170-189)

    The loop [for (auto& edit : edits)], with the adjustment, the records
    pushed so far being returned in front, and the states of [new_source]
    and [*old_tree]. *)
Fixpoint _apply_all_edits_loop (edits : list Edit) (adjustment : Adjustment)
  (new_source : std_string) (old_tree : option TSTree)
  : result (list AppliedEdit * option TSTree * std_string) :=
  match edits with
  | [] => Ok ([], old_tree, new_source)
  | edit :: edits' =>
      let range_before_adjustments := range edit in
      let edit := _adjust_edit edit adjustment in
      '(applied_edit, old_tree, new_source) <- _apply_edit edit old_tree new_source ;;
      let applied_edit :=
        {| before := range_before_adjustments;
           after := after applied_edit;
           old_source := old_source applied_edit;
           applied_replacement := applied_replacement applied_edit |} in
      let adjustment :=
        _update_adjustment adjustment applied_edit (point (end_ (range edit))) in
      '(applied_edits, old_tree, new_source) <-
        _apply_all_edits_loop edits' adjustment new_source old_tree ;;
      Ok (applied_edit :: applied_edits, old_tree, new_source)
  end.

Definition _apply_all_edits (edits : list Edit) (new_source : std_string)
  (old_tree : option TSTree)
  : result (list AppliedEdit * option TSTree * std_string) :=
  _apply_all_edits_loop edits Adjustment_init new_source old_tree.

(** ** ChangeSetReporter: [_get_changed_ranges] (lines 79-102) *)
Definition _get_changed_ranges (old_tree : option TSTree) (new_tree : TSTree)
  : list Range :=
  match ts_tree_get_changed_ranges old_tree new_tree with
  | [] => []
  | ranges => map _range ranges
  end.

(** ** [Parser::parse_string] ([src/tree_sitter.cpp], lines 636-650) *)
Definition parse_string (parser : TSParser) (old_tree : option TSTree)
  (source : std_string) : result Tree :=
  match ts_parser_parse_string parser old_tree source with
  | None => Throw ParseFailureException
  | Some t => Ok {| tree := Some t; source_ := source; parser_ := parser |}
  end.

(** ** [edit_tree] ([src/edit_helper.cpp], lines 192-219)

    [tree] is the document before the call; the result is the value
    returned and the document after [swap(tree, new_tree)]. When the
    function throws, it has not assigned to [tree]. *)
Definition edit_tree (edits : list Edit) (tree : Tree) (old_tree : option TSTree)
  : result (EditResult * Tree) :=
  let new_source := source tree in
  let edits := std_sort edit_comp edits in
  _check_edits edits ;;;
  '(applied_edits, old_tree, new_source) <- _apply_all_edits edits new_source old_tree ;;
  new_tree <- parse_string (parser tree) old_tree new_source ;;
  let changed_ranges :=
    match raw new_tree with
    | Some raw => _get_changed_ranges old_tree raw
    | None => []
    end in
  Ok ({| changed_ranges := changed_ranges; applied_edits := applied_edits |}, new_tree).

(** ** [Tree::edit] ([src/tree_sitter.cpp], lines 490-494)

    [std::move(this->tree)] leaves the member null before [edit_tree] runs;
    the local [old_tree] is destroyed on every way out of the function.
    The result is the document after the call and what the call returned
    or threw. *)
Definition Tree_edit (this : Tree) (edits : list Edit) : Tree * result EditResult :=
  let old_tree := tree this in
  let this := {| tree := None; source_ := source_ this; parser_ := parser_ this |} in
  match edit_tree edits this old_tree with
  | Ok (res, this') => (this', Ok res)
  | Throw e => (this, Throw e)
  end.

(** * Properties *)

(** ** Machine integers *)

Lemma wrap32_small (z : Z) : 0 <= z < 2 ^ 32 -> wrap32 z = z.
Proof. intros H. unfold wrap32. apply Z.mod_small. exact H. Qed.

Lemma to_int_small (z : Z) : - 2 ^ 31 <= z < 2 ^ 31 -> to_int z = z.
Proof. intros H. unfold to_int. rewrite Z.mod_small; lia. Qed.

Lemma to_int_wrap32 (z : Z) : to_int (wrap32 z) = to_int z.
Proof.
  unfold to_int, wrap32.
  rewrite Zplus_mod_idemp_l. reflexivity.
Qed.

(** ** [Range::overlaps] *)

(** The closed form of the method, one case per branch of the source. *)
Lemma overlaps_cases (this other : Range) :
  overlaps this other =
  if byte (start this) >? byte (start other)
  then byte (end_ other) >? byte (start this)
  else byte (end_ this) >? byte (start other).
Proof.
  funelim (overlaps this other);
    match goal with E : _ = exist _ _ _ |- _ => clear E | E : _ = sigmaI _ _ _ |- _ => clear E end;
    unfold Location_ops.gtb in *.
  - rewrite H, e.
    destruct (byte (start other) >? byte (start this)) eqn:E; [ | reflexivity ].
    rewrite Z.gtb_lt in e, E. lia.
  - rewrite e. reflexivity.
Qed.

Example overlaps_ex1 :
  overlaps (mkRange (mkLocation 0 0 0) (mkLocation 0 2 2))
           (mkRange (mkLocation 0 2 2) (mkLocation 0 4 4)) = false.
Proof. reflexivity. Qed.


Lemma nonempty_well_formed (r : Range) : nonempty r -> well_formed r.
Proof. unfold nonempty, well_formed. intros H. split; lia. Qed.

Lemma overlaps_sym_nonempty (a b : Range) :
  nonempty a -> nonempty b -> overlaps a b = overlaps b a.
Proof.
  unfold nonempty. intros Ha Hb. rewrite !overlaps_cases.
  destruct (byte (start a) >? byte (start b)) eqn:E1;
    destruct (byte (start b) >? byte (start a)) eqn:E2;
    try reflexivity.
  - rewrite Z.gtb_lt in E1, E2. lia.
  - assert (byte (start a) = byte (start b)).
    { destruct (Z.gtb_spec (byte (start a)) (byte (start b)));
        destruct (Z.gtb_spec (byte (start b)) (byte (start a))); try discriminate; lia. }
    assert ((byte (end_ a) >? byte (start b)) = true) as -> by (rewrite Z.gtb_lt; lia).
    symmetry. rewrite Z.gtb_lt. lia.
Qed.

Lemma overlaps_sym_distinct_start (a b : Range) :
  byte (start a) <> byte (start b) -> overlaps a b = overlaps b a.
Proof.
  intros Hne. rewrite !overlaps_cases.
  destruct (Z.gtb_spec (byte (start a)) (byte (start b)));
    destruct (Z.gtb_spec (byte (start b)) (byte (start a))); try reflexivity; lia.
Qed.

Lemma overlaps_touching (a b : Range) :
  byte (start a) <= byte (end_ a) ->
  byte (end_ a) = byte (start b) ->
  overlaps a b = false.
Proof.
  intros Hwf Htouch. rewrite overlaps_cases.
  destruct (Z.gtb_spec (byte (start a)) (byte (start b))); [ lia | ].
  destruct (Z.gtb_spec (byte (end_ a)) (byte (start b))); [ lia | reflexivity ].
Qed.

(** Two non-overlapping ranges that hold a byte each start at different
    bytes, and the one that starts first ends before the other starts. *)
Lemma no_overlap_ordered (a b : Range) :
  nonempty a -> byte (start a) <= byte (start b) ->
  overlaps a b = false -> byte (end_ a) <= byte (start b).
Proof.
  unfold nonempty. intros Ha Hle. rewrite overlaps_cases.
  destruct (Z.gtb_spec (byte (start a)) (byte (start b))); [ lia | ].
  destruct (Z.gtb_spec (byte (end_ a)) (byte (start b))); [ discriminate | lia ].
Qed.

(** ** EditValidator *)

Lemma _forbid_overlap_Ok (i : nat) (edit1 : Edit) (rest : list Edit) (j : nat) :
  _forbid_overlap i edit1 j rest = Ok tt <->
  (forall k edit2, nth_error rest k = Some edit2 -> i <> (j + k)%nat ->
                   overlaps (range edit1) (range edit2) = false).
Proof.
  revert j. induction rest as [ | edit2 rest IH ]; intros j; simpl.
  - split; [ | reflexivity ]. intros _ [ | k ] e; discriminate.
  - destruct (Nat.eqb_spec i j) as [ Hij | Hij ].
    + rewrite IH. split.
      * intros H [ | k ] e Hnth Hne; simpl in Hnth.
        -- lia.
        -- apply (H k e Hnth). lia.
      * intros H k e Hnth Hne. apply (H (S k) e Hnth). lia.
    + destruct (overlaps (range edit1) (range edit2)) eqn:Hov.
      * split; [ discriminate | ].
        intros H. specialize (H 0%nat edit2 eq_refl). rewrite Hov in H.
        assert (true = false) by (apply H; lia). discriminate.
      * rewrite IH. split.
        -- intros H [ | k ] e Hnth Hne; simpl in Hnth.
           ++ injection Hnth as <-. exact Hov.
           ++ apply (H k e Hnth). lia.
        -- intros H k e Hnth Hne. apply (H (S k) e Hnth). lia.
Qed.

Lemma _forbid_overlap_result (i : nat) (edit1 : Edit) (rest : list Edit) (j : nat) :
  _forbid_overlap i edit1 j rest = Ok tt
  \/ _forbid_overlap i edit1 j rest = Throw OverlappingEditException.
Proof.
  revert j. induction rest as [ | edit2 rest IH ]; intros j; simpl.
  - left. reflexivity.
  - destruct (Nat.eqb i j); [ apply IH | ].
    destruct (overlaps (range edit1) (range edit2)); [ right; reflexivity | apply IH ].
Qed.

Lemma _check_edits_from_Ok (edits rest : list Edit) (i : nat) :
  _check_edits_from edits i rest = Ok tt <->
  (forall k edit1, nth_error rest k = Some edit1 -> passes edits (i + k) edit1).
Proof.
  revert i. induction rest as [ | edit1 rest IH ]; intros i; simpl.
  - split; [ | reflexivity ]. intros _ [ | k ] e; discriminate.
  - unfold _forbid_zero_sized_edit, _forbid_multiline_edit.
    destruct (is_zero_sized edit1) eqn:Hz; simpl.
    { split; [ discriminate | ]. intros H.
      destruct (H 0%nat edit1 eq_refl) as [ Hz' _ ]. congruence. }
    destruct (is_multiline edit1) eqn:Hm; simpl.
    { split; [ discriminate | ]. intros H.
      destruct (H 0%nat edit1 eq_refl) as ( _ & Hm' & _ ). congruence. }
    destruct (_forbid_overlap_result i edit1 edits 0) as [ Ho | Ho ]; rewrite Ho; simpl.
    + rewrite IH. rewrite _forbid_overlap_Ok in Ho. split.
      * intros H [ | k ] e Hnth; simpl in Hnth.
        -- injection Hnth as <-. rewrite Nat.add_0_r. repeat split; auto.
        -- replace (i + S k)%nat with (S i + k)%nat by lia. apply H. exact Hnth.
      * intros H k e Hnth. replace (S i + k)%nat with (i + S k)%nat by lia.
        apply H. exact Hnth.
    + split; [ discriminate | ]. intros H.
      destruct (H 0%nat edit1 eq_refl) as ( _ & _ & Hov ).
      rewrite Nat.add_0_r in Hov.
      assert (Hok : _forbid_overlap i edit1 0 edits = Ok tt).
      { apply _forbid_overlap_Ok. intros k e Hnth Hne. apply (Hov k e Hnth Hne). }
      congruence.
Qed.

(** A batch passes validation exactly when no edit is zero-sized or
    multiline and no two edits at different positions overlap. *)
Lemma _check_edits_Ok (edits : list Edit) :
  _check_edits edits = Ok tt <->
  (forall i edit1, nth_error edits i = Some edit1 -> passes edits i edit1).
Proof. unfold _check_edits. apply _check_edits_from_Ok. Qed.

(** ** EditOrderer *)

Lemma sort_insert_perm (val : Edit) (sorted : list Edit) :
  Permutation (sort_insert edit_comp val sorted) (val :: sorted).
Proof.
  induction sorted as [ | x sorted IH ]; simpl.
  - apply Permutation_refl.
  - destruct (edit_comp val x).
    + apply Permutation_refl.
    + apply perm_trans with (x :: val :: sorted).
      * apply perm_skip. exact IH.
      * apply perm_swap.
Qed.

Lemma sort_insert_ascending (val : Edit) (sorted : list Edit) :
  ascending sorted -> ascending (sort_insert edit_comp val sorted).
Proof.
  unfold ascending.
  induction sorted as [ | x sorted IH ]; simpl; intros Hs.
  - constructor; [ constructor | constructor ].
  - inversion Hs as [ | ? ? Hs' Hx ]; subst.
    unfold edit_comp at 1. fold (start_byte_of val). fold (start_byte_of x).
    destruct (Z.leb_spec (start_byte_of val) (start_byte_of x)) as [ Hle | Hgt ].
    + constructor; [ exact Hs | ].
      constructor; [ exact Hle | ].
      rewrite Forall_forall in Hx |- *. intros y Hy. specialize (Hx y Hy). lia.
    + constructor; [ apply IH; exact Hs' | ].
      rewrite Forall_forall in Hx |- *. intros y Hy.
      apply (Permutation_in _ (sort_insert_perm val sorted)) in Hy.
      destruct Hy as [ <- | Hy ]; [ lia | apply Hx; exact Hy ].
Qed.

Lemma fold_insert_perm (edits acc : list Edit) :
  Permutation
    (fold_left (fun sorted val => sort_insert edit_comp val sorted) edits acc)
    (edits ++ acc).
Proof.
  revert acc. induction edits as [ | e edits IH ]; intros acc; simpl.
  - apply Permutation_refl.
  - eapply perm_trans; [ apply IH | ].
    eapply perm_trans; [ apply Permutation_app_head, sort_insert_perm | ].
    apply Permutation_sym, Permutation_middle.
Qed.

Lemma fold_insert_ascending (edits acc : list Edit) :
  ascending acc ->
  ascending (fold_left (fun sorted val => sort_insert edit_comp val sorted) edits acc).
Proof.
  revert acc. induction edits as [ | e edits IH ]; intros acc Hacc; simpl.
  - exact Hacc.
  - apply IH, sort_insert_ascending, Hacc.
Qed.

Lemma std_sort_perm (edits : list Edit) :
  Permutation (std_sort edit_comp edits) edits.
Proof.
  unfold std_sort. eapply perm_trans; [ apply fold_insert_perm | ].
  rewrite app_nil_r. apply Permutation_refl.
Qed.

Lemma std_sort_ascending (edits : list Edit) :
  ascending (std_sort edit_comp edits).
Proof. apply fold_insert_ascending. constructor. Qed.

Lemma ascending_strict (edits : list Edit) :
  ascending edits -> NoDup (map start_byte_of edits) -> strictly_ascending edits.
Proof.
  unfold ascending, strictly_ascending.
  induction edits as [ | e edits IH ]; intros Hs Hnd.
  - constructor.
  - inversion Hs as [ | ? ? Hs' He ]; subst.
    simpl in Hnd. inversion Hnd as [ | ? ? Hnotin Hnd' ]; subst.
    constructor; [ apply IH; assumption | ].
    rewrite Forall_forall in He |- *. intros y Hy.
    specialize (He y Hy).
    assert (start_byte_of e <> start_byte_of y).
    { intros Heq. apply Hnotin. rewrite Heq. apply in_map. exact Hy. }
    lia.
Qed.

(** With pairwise different start bytes there is one sorted arrangement:
    whatever procedure [std::sort] runs, it returns this list. *)
Lemma sorted_unique (l1 l2 : list Edit) :
  strictly_ascending l1 -> strictly_ascending l2 -> Permutation l1 l2 -> l1 = l2.
Proof.
  unfold strictly_ascending.
  revert l2. induction l1 as [ | a l1 IH ]; intros l2 H1 H2 Hp.
  - apply Permutation_nil in Hp. symmetry. exact Hp.
  - destruct l2 as [ | b l2 ].
    { apply Permutation_sym, Permutation_nil in Hp. discriminate. }
    inversion H1 as [ | ? ? H1' Ha ]; subst.
    inversion H2 as [ | ? ? H2' Hb ]; subst.
    rewrite Forall_forall in Ha, Hb.
    assert (Hab : a = b).
    { assert (Hin1 : In a (b :: l2)) by (apply (Permutation_in _ Hp); left; reflexivity).
      assert (Hin2 : In b (a :: l1))
        by (apply (Permutation_in _ (Permutation_sym Hp)); left; reflexivity).
      destruct Hin1 as [ Heq | Hin1 ]; [ symmetry; exact Heq | ].
      destruct Hin2 as [ Heq | Hin2 ]; [ exact Heq | ].
      specialize (Ha b Hin2). specialize (Hb a Hin1). lia. }
    subst b. f_equal. apply IH; try assumption.
    apply Permutation_cons_inv with a. exact Hp.
Qed.

Lemma strictly_ascending_NoDup (edits : list Edit) :
  strictly_ascending edits -> NoDup (map start_byte_of edits).
Proof.
  unfold strictly_ascending. induction 1 as [ | e edits Hs IH He ]; simpl.
  - constructor.
  - constructor; [ | exact IH ].
    rewrite in_map_iff. intros (y & Heq & Hy).
    rewrite Forall_forall in He. specialize (He y Hy). lia.
Qed.

Lemma strictly_ascending_nth (edits : list Edit) (i j : nat) (e1 e2 : Edit) :
  strictly_ascending edits -> (i < j)%nat ->
  nth_error edits i = Some e1 -> nth_error edits j = Some e2 ->
  start_byte_of e1 < start_byte_of e2.
Proof.
  unfold strictly_ascending. intros Hs. revert i j.
  induction Hs as [ | e edits Hs IH He ]; intros i j Hij H1 H2.
  - destruct i; discriminate.
  - destruct j as [ | j ]; [ lia | ]. simpl in H2.
    destruct i as [ | i ]; simpl in H1.
    + injection H1 as <-. rewrite Forall_forall in He.
      apply He. eapply nth_error_In. exact H2.
    + apply (IH i j); [ lia | assumption | assumption ].
Qed.

(** ** Claims on [Range::overlaps] *)

(** Claim C7. [Range::overlaps] is meant to be symmetric, and the method
    exchanges its arguments to that end, but when both ranges start at the
    same byte and one of them is empty the answer depends on the receiver:
    the empty range [3,3) does not overlap [3,5), while [3,5) overlaps
    [3,3). *)
Theorem overlaps_not_symmetric_at_empty_range :
  let a := mkRange (mkLocation 0 3 3) (mkLocation 0 3 3) in
  let b := mkRange (mkLocation 0 3 3) (mkLocation 0 5 5) in
  overlaps a b = false /\ overlaps b a = true.
Proof. split; reflexivity. Qed.

(** The rest of claim C7 holds: ranges [0,2) and [2,4) do not overlap, in
    either direction, and a batch of the two passes validation. *)
Example touching_batch_passes :
  overlaps (range (replace_at 0 0 0 2 "x")) (range (replace_at 0 2 2 2 "y")) = false
  /\ overlaps (range (replace_at 0 2 2 2 "y")) (range (replace_at 0 0 0 2 "x")) = false
  /\ _check_edits [replace_at 0 0 0 2 "x"; replace_at 0 2 2 2 "y"] = Ok tt.
Proof. repeat split; reflexivity. Qed.

(** Claim C10. [Range::overlaps] reads the byte offsets only: two pairs of
    ranges with the same four byte offsets get the same answer, whatever
    their rows and columns. *)
Theorem overlaps_depends_on_bytes_only (a b a' b' : Range) :
  byte (start a) = byte (start a') ->
  byte (end_ a) = byte (end_ a') ->
  byte (start b) = byte (start b') ->
  byte (end_ b) = byte (end_ b') ->
  overlaps a b = overlaps a' b'.
Proof.
  intros Hsa Hea Hsb Heb. rewrite !overlaps_cases.
  rewrite Hsa, Hea, Hsb, Heb. reflexivity.
Qed.

Lemma overlaps_depends_on_bytes_only_witness :
  overlaps (mkRange (mkLocation 0 1 1) (mkLocation 0 4 4))
           (mkRange (mkLocation 0 3 3) (mkLocation 0 6 6))
  = overlaps (mkRange (mkLocation 7 0 1) (mkLocation 9 2 4))
             (mkRange (mkLocation 8 5 3) (mkLocation 8 1 6)).
Proof.
  apply (overlaps_depends_on_bytes_only
           (mkRange (mkLocation 0 1 1) (mkLocation 0 4 4))
           (mkRange (mkLocation 0 3 3) (mkLocation 0 6 6))
           (mkRange (mkLocation 7 0 1) (mkLocation 9 2 4))
           (mkRange (mkLocation 8 5 3) (mkLocation 8 1 6)));
    reflexivity.
Defined.

(** ** Claims on the validator *)

Lemma _check_edits_from_Multiline (edits rest : list Edit) (i : nat) :
  _check_edits_from edits i rest = Throw MultilineEditException <->
  (exists k edit,
      nth_error rest k = Some edit
      /\ is_zero_sized edit = false
      /\ is_multiline edit = true
      /\ (forall k' e, (k' < k)%nat -> nth_error rest k' = Some e ->
                       passes edits (i + k') e)).
Proof.
  revert i. induction rest as [ | edit1 rest IH ]; intros i; simpl.
  - split; [ discriminate | ]. intros ([ | k ] & e & Hnth & _); discriminate.
  - unfold _forbid_zero_sized_edit, _forbid_multiline_edit.
    destruct (is_zero_sized edit1) eqn:Hz; simpl.
    { split; [ discriminate | ].
      intros ([ | k ] & e & Hnth & Hz' & Hm' & Hpre); simpl in Hnth.
      - injection Hnth as <-. congruence.
      - destruct (Hpre 0%nat edit1) as [ Hz'' _ ]; [ lia | reflexivity | congruence ]. }
    destruct (is_multiline edit1) eqn:Hm; simpl.
    { split; [ intros _ | reflexivity ].
      exists 0%nat, edit1.
      split; [ reflexivity | split; [ exact Hz | split; [ exact Hm | ] ] ].
      intros n e Hlt. lia. }
    destruct (_forbid_overlap_result i edit1 edits 0) as [ Ho | Ho ]; rewrite Ho; simpl.
    + rewrite IH. rewrite _forbid_overlap_Ok in Ho. split.
      * intros (k & e & Hnth & Hz' & Hm' & Hpre).
        exists (S k), e.
        split; [ exact Hnth | split; [ exact Hz' | split; [ exact Hm' | ] ] ].
        intros [ | k' ] e' Hlt Hnth'; simpl in Hnth'.
        -- injection Hnth' as <-. rewrite Nat.add_0_r. repeat split; auto.
        -- replace (i + S k')%nat with (S i + k')%nat by lia.
           apply Hpre; [ lia | exact Hnth' ].
      * intros ([ | k ] & e & Hnth & Hz' & Hm' & Hpre); simpl in Hnth.
        -- injection Hnth as <-. congruence.
        -- exists k, e.
           split; [ exact Hnth | split; [ exact Hz' | split; [ exact Hm' | ] ] ].
           intros k' e' Hlt Hnth'.
           replace (S i + k')%nat with (i + S k')%nat by lia.
           apply Hpre; [ lia | exact Hnth' ].
    + split; [ discriminate | ].
      intros ([ | k ] & e & Hnth & Hz' & Hm' & Hpre); simpl in Hnth.
      * injection Hnth as <-. congruence.
      * destruct (Hpre 0%nat edit1) as ( _ & _ & Hov ); [ lia | reflexivity | ].
        rewrite Nat.add_0_r in Hov.
        assert (Hok : _forbid_overlap i edit1 0 edits = Ok tt).
        { apply _forbid_overlap_Ok. intros j e2 Hnth2 Hne. apply (Hov j e2 Hnth2 Hne). }
        congruence.
Qed.

(** Claim C8, as the code has it. Validation signals [MultilineEdit] exactly
    when the first edit, in processing order, that fails a check is a
    multiline edit that is not zero-sized. Hence it signals it only when
    some edit spans two rows or has a line break in its replacement, a batch
    with such an edit never passes validation, and a batch of single-row
    edits with replacements free of line breaks is never rejected with
    [MultilineEdit]. *)
Theorem MultilineEdit_iff_first_failure (edits : list Edit) :
  (_check_edits edits = Throw MultilineEditException <->
   first_failure_is_multiline edits)
  /\ (_check_edits edits = Throw MultilineEditException ->
      exists edit, In edit edits /\ is_multiline edit = true)
  /\ ((exists edit, In edit edits /\ is_multiline edit = true) ->
      _check_edits edits <> Ok tt)
  /\ ((forall edit, In edit edits -> is_multiline edit = false) ->
      _check_edits edits <> Throw MultilineEditException).
Proof.
  assert (Hiff : _check_edits edits = Throw MultilineEditException <->
                 first_failure_is_multiline edits).
  { unfold _check_edits, first_failure_is_multiline.
    rewrite _check_edits_from_Multiline. simpl. reflexivity. }
  assert (Hex : _check_edits edits = Throw MultilineEditException ->
                exists edit, In edit edits /\ is_multiline edit = true).
  { intros H. apply Hiff in H. destruct H as (i & e & Hnth & _ & Hm & _).
    exists e. split; [ eapply nth_error_In; exact Hnth | exact Hm ]. }
  repeat split.
  - apply Hiff.
  - apply Hiff.
  - exact Hex.
  - intros (e & Hin & Hm) Hok.
    apply In_nth_error in Hin. destruct Hin as (i & Hnth).
    rewrite _check_edits_Ok in Hok.
    destruct (Hok i e Hnth) as ( _ & Hm' & _ ). congruence.
  - intros Hall H. destruct (Hex H) as (e & Hin & Hm).
    rewrite (Hall e Hin) in Hm. discriminate.
Qed.

(** Claim C8 as it is written fails from right to left: the batch of the one
    edit that replaces the empty range at byte 0 by a line break holds a
    multiline edit, and validation signals [ZeroSizedEdit]. *)
Lemma MultilineEdit_iff_some_multiline_fails :
  ~ (forall edits : list Edit,
        _check_edits edits = Throw MultilineEditException <->
        exists edit, In edit edits /\ is_multiline edit = true).
Proof.
  intros H.
  pose (e := {| range := mkRange (mkLocation 0 0 0) (mkLocation 0 0 0);
                replacement := [newline] |}).
  destruct (H [e]) as [ _ Hback ].
  assert (Hthrow : _check_edits [e] = Throw ZeroSizedEditException) by reflexivity.
  rewrite Hthrow in Hback.
  assert (Hm : exists edit, In edit [e] /\ is_multiline edit = true).
  { exists e. split; [ left; reflexivity | reflexivity ]. }
  specialize (Hback Hm). discriminate.
Qed.

(** ** [edit_tree] and [Tree::edit]: what a return and a throw mean *)

Lemma _check_edits_result (edits : list Edit) :
  _check_edits edits = Ok tt \/ exists e, _check_edits edits = Throw e.
Proof.
  destruct (_check_edits edits) as [ [] | e ]; [ left; reflexivity | right; eauto ].
Qed.

Lemma edit_tree_Ok_inv (edits : list Edit) (doc doc' : Tree) (old_tree : option TSTree)
  (res : EditResult) :
  edit_tree edits doc old_tree = Ok (res, doc') ->
  _check_edits (std_sort edit_comp edits) = Ok tt
  /\ exists old_tree' new_source raw_tree,
      _apply_all_edits (std_sort edit_comp edits) (source_ doc) old_tree
      = Ok (applied_edits res, old_tree', new_source)
      /\ ts_parser_parse_string (parser_ doc) old_tree' new_source = Some raw_tree
      /\ doc' = {| tree := Some raw_tree; source_ := new_source; parser_ := parser_ doc |}.
Proof.
  unfold edit_tree, source, parser.
  destruct (_check_edits (std_sort edit_comp edits)) as [ [] | e ]; simpl;
    [ | discriminate ].
  destruct (_apply_all_edits (std_sort edit_comp edits) (source_ doc) old_tree)
    as [ [ [ aes old_tree' ] new_source ] | e ]; simpl; [ | discriminate ].
  unfold parse_string.
  destruct (ts_parser_parse_string (parser_ doc) old_tree' new_source)
    as [ raw_tree | ] eqn:Eparse; simpl; [ | discriminate ].
  intros H. injection H as <- <-. split; [ reflexivity | ].
  exists old_tree', new_source, raw_tree.
  split; [ reflexivity | split; [ exact Eparse | reflexivity ] ].
Qed.

Lemma Tree_edit_Ok_inv (this this' : Tree) (edits : list Edit) (res : EditResult) :
  Tree_edit this edits = (this', Ok res) ->
  _check_edits (std_sort edit_comp edits) = Ok tt
  /\ exists old_tree' new_source raw_tree,
      _apply_all_edits (std_sort edit_comp edits) (source_ this) (tree this)
      = Ok (applied_edits res, old_tree', new_source)
      /\ ts_parser_parse_string (parser_ this) old_tree' new_source = Some raw_tree
      /\ this' = {| tree := Some raw_tree; source_ := new_source; parser_ := parser_ this |}.
Proof.
  unfold Tree_edit.
  destruct (edit_tree edits _ (tree this)) as [ [ res0 doc' ] | e ] eqn:E;
    [ | discriminate ].
  intros H. injection H as <- <-.
  apply edit_tree_Ok_inv in E. exact E.
Qed.

(** Whatever [Tree::edit] throws, the copy of the source is the one from
    before the call, and the member [tree] is the null pointer that
    [std::move] left behind. *)
Lemma Tree_edit_Throw (this this' : Tree) (edits : list Edit) (e : exception) :
  Tree_edit this edits = (this', Throw e) ->
  source_ this' = source_ this /\ parser_ this' = parser_ this /\ tree this' = None.
Proof.
  unfold Tree_edit.
  destruct (edit_tree edits _ (tree this)) as [ [ res0 doc' ] | e' ];
    [ discriminate | ].
  intros H. injection H as <- _. repeat split.
Qed.

(** A batch that fails validation makes [Tree::edit] throw the exception of
    the validator. *)
Lemma Tree_edit_validation_failure (this : Tree) (edits : list Edit) (e : exception) :
  _check_edits (std_sort edit_comp edits) = Throw e ->
  Tree_edit this edits
  = ({| tree := None; source_ := source_ this; parser_ := parser_ this |}, Throw e).
Proof.
  intros H. unfold Tree_edit, edit_tree. rewrite H. reflexivity.
Qed.

(** Claim C1. The text of the buffer survives a failed validation, the tree
    does not: [Tree::edit] moves the tree out of the document before
    [edit_tree] validates the batch, so after [OverlappingEditException] on
    the batch that holds the edit of bytes [0,2) of "11 + 2" twice, the
    document holds its old text and a null tree. *)
Theorem Tree_edit_failed_validation_drops_tree (t : TSTree) (p : TSParser) :
  let this := {| tree := Some t; source_ := bytes "11 + 2"; parser_ := p |} in
  let edit := replace_at 0 0 0 2 "33" in
  Tree_edit this [edit; edit]
  = ({| tree := None; source_ := bytes "11 + 2"; parser_ := p |},
     Throw OverlappingEditException)
  /\ tree (fst (Tree_edit this [edit; edit])) <> tree this.
Proof.
  split; [ reflexivity | ]. simpl. discriminate.
Qed.

(** ** The records returned by [_apply_all_edits] *)

Lemma _apply_edit_Ok_inv (edit : Edit) (old_tree old_tree' : option TSTree)
  (src src' : std_string) (a : AppliedEdit) :
  _apply_edit edit old_tree src = Ok (a, old_tree', src') ->
  byte (start (range edit)) <= size src
  /\ a = applied edit src
  /\ src' = patched edit src
  /\ old_tree <> None.
Proof.
  unfold _apply_edit, substr, replace, applied, patched.
  destruct (Z.gtb_spec (byte (start (range edit))) (size src)) as [ Hgt | Hle ]; simpl;
    [ discriminate | ].
  destruct old_tree as [ t | ]; [ | discriminate ].
  intros H. injection H as <- _ <-.
  repeat split; [ exact Hle | discriminate ].
Qed.

Lemma _apply_edit_Ok (edit : Edit) (t : TSTree) (src : std_string) :
  byte (start (range edit)) <= size src ->
  exists t', _apply_edit edit (Some t) src = Ok (applied edit src, Some t', patched edit src).
Proof.
  intros Hle. unfold _apply_edit, substr, replace, applied, patched.
  destruct (Z.gtb_spec (byte (start (range edit))) (size src)) as [ Hgt | _ ]; [ lia | ].
  simpl. eexists. reflexivity.
Qed.

Lemma _adjust_edit_replacement (edit : Edit) (adjustment : Adjustment) :
  replacement (_adjust_edit edit adjustment) = replacement edit.
Proof. reflexivity. Qed.

Lemma _apply_all_edits_loop_before (edits : list Edit) :
  forall (adjustment : Adjustment) (src src' : std_string)
         (old_tree old_tree' : option TSTree) (aes : list AppliedEdit),
    _apply_all_edits_loop edits adjustment src old_tree = Ok (aes, old_tree', src') ->
    Forall2 (fun a e => before a = range e /\ applied_replacement a = replacement e)
            aes edits.
Proof.
  induction edits as [ | edit edits IH ]; intros adjustment src src' old_tree old_tree' aes;
    simpl.
  - intros H. injection H as <- _ _. constructor.
  - destruct (_apply_edit (_adjust_edit edit adjustment) old_tree src)
      as [ [ [ a1 t1 ] s1 ] | e ] eqn:E1; simpl; [ | discriminate ].
    match goal with
    | |- context [ _apply_all_edits_loop edits ?adj s1 t1 ] =>
        destruct (_apply_all_edits_loop edits adj s1 t1)
          as [ [ [ aes' t2 ] s2 ] | e ] eqn:E2; simpl; [ | discriminate ]
    end.
    intros H. injection H as <- _ _.
    constructor.
    + simpl. split; [ reflexivity | ].
      apply _apply_edit_Ok_inv in E1. destruct E1 as ( _ & -> & _ ). reflexivity.
    + eapply IH. exact E2.
Qed.

(** Claim C9. In the result of a successful batch the [before] field of each
    record is the range of the edit it stands for, as the caller wrote it:
    record by record along the sorted batch, the range and the replacement
    are those of the caller's edit. *)
Theorem applied_edit_before_is_supplied_range (this this' : Tree) (edits : list Edit)
  (res : EditResult) :
  Tree_edit this edits = (this', Ok res) ->
  Forall2 (fun a e => before a = range e /\ applied_replacement a = replacement e)
          (applied_edits res) (std_sort edit_comp edits)
  /\ Permutation (std_sort edit_comp edits) edits.
Proof.
  intros H. apply Tree_edit_Ok_inv in H.
  destruct H as ( _ & t' & src' & nt & Happly & _ ).
  split; [ | apply std_sort_perm ].
  unfold _apply_all_edits in Happly.
  eapply _apply_all_edits_loop_before. exact Happly.
Qed.

(** ** Order of processing *)

Lemma well_formed_nonempty (edit : Edit) :
  well_formed (range edit) -> is_zero_sized edit = false -> nonempty (range edit).
Proof.
  unfold well_formed, is_zero_sized, nonempty, Location_ops.eqb, Point_ops.eqb.
  intros [ Hle Hpt ] Hz.
  destruct (Z.eq_dec (byte (start (range edit))) (byte (end_ (range edit)))) as [ Heq | Hne ];
    [ | lia ].
  rewrite <- (Hpt Heq), Heq, !Z.eqb_refl in Hz. discriminate.
Qed.

Lemma valid_distinct_starts (edits : list Edit) :
  (forall e, In e edits -> well_formed (range e)) ->
  _check_edits edits = Ok tt ->
  NoDup (map start_byte_of edits).
Proof.
  intros Hwf Hok. rewrite _check_edits_Ok in Hok.
  apply NoDup_nth_error. intros i j Hi Heq.
  rewrite length_map in Hi. rewrite !nth_error_map in Heq.
  destruct (nth_error edits i) as [ e1 | ] eqn:E1;
    [ | apply nth_error_None in E1; lia ].
  destruct (nth_error edits j) as [ e2 | ] eqn:E2; [ | discriminate ].
  simpl in Heq. injection Heq as Heq.
  destruct (Nat.eq_dec i j) as [ | Hne ]; [ assumption | exfalso ].
  destruct (Hok i e1 E1) as ( Hz & _ & Hov ).
  specialize (Hov j e2 E2 Hne).
  assert (Hn : nonempty (range e1)).
  { apply well_formed_nonempty; [ apply Hwf; eapply nth_error_In; exact E1 | exact Hz ]. }
  unfold nonempty in Hn. unfold start_byte_of in Heq.
  rewrite overlaps_cases in Hov.
  destruct (Z.gtb_spec (byte (start (range e1))) (byte (start (range e2)))); [ lia | ].
  destruct (Z.gtb_spec (byte (end_ (range e1))) (byte (start (range e2))));
    [ discriminate | lia ].
Qed.

(** A validated batch of well-formed ranges is sorted without ties. *)
Lemma valid_sorted_strict (edits : list Edit) :
  (forall e, In e edits -> well_formed (range e)) ->
  _check_edits (std_sort edit_comp edits) = Ok tt ->
  strictly_ascending (std_sort edit_comp edits).
Proof.
  intros Hwf Hok. apply ascending_strict; [ apply std_sort_ascending | ].
  apply valid_distinct_starts; [ | exact Hok ].
  intros e Hin. apply Hwf. apply (Permutation_in _ (std_sort_perm edits)). exact Hin.
Qed.

Lemma std_sort_permutation_invariant (edits edits' : list Edit) :
  Permutation edits edits' ->
  strictly_ascending (std_sort edit_comp edits) ->
  std_sort edit_comp edits' = std_sort edit_comp edits.
Proof.
  intros Hp Hs.
  assert (Hp' : Permutation (std_sort edit_comp edits') (std_sort edit_comp edits)).
  { eapply perm_trans; [ apply std_sort_perm | ].
    eapply perm_trans; [ apply Permutation_sym; exact Hp | ].
    apply Permutation_sym, std_sort_perm. }
  apply sorted_unique; [ | exact Hs | exact Hp' ].
  apply ascending_strict; [ apply std_sort_ascending | ].
  apply (Permutation_NoDup (l := map start_byte_of (std_sort edit_comp edits))).
  - apply Permutation_map, Permutation_sym, Hp'.
  - apply strictly_ascending_NoDup, Hs.
Qed.

Lemma Forall2_nth_error_l {A B : Type} (R : A -> B -> Prop) (l1 : list A) (l2 : list B) :
  Forall2 R l1 l2 ->
  forall i a, nth_error l1 i = Some a -> exists b, nth_error l2 i = Some b /\ R a b.
Proof.
  induction 1 as [ | x y l1 l2 Hxy HF IH ]; intros i a Hnth.
  - destruct i; discriminate.
  - destruct i as [ | i ]; simpl in Hnth.
    + injection Hnth as <-. exists y. split; [ reflexivity | exact Hxy ].
    + apply IH. exact Hnth.
Qed.

Lemma ascending_nth (edits : list Edit) (i j : nat) (e1 e2 : Edit) :
  ascending edits -> (i < j)%nat ->
  nth_error edits i = Some e1 -> nth_error edits j = Some e2 ->
  start_byte_of e1 <= start_byte_of e2.
Proof.
  unfold ascending. intros Hs. revert i j.
  induction Hs as [ | e edits Hs IH He ]; intros i j Hij H1 H2.
  - destruct i; discriminate.
  - destruct j as [ | j ]; [ lia | ]. simpl in H2.
    destruct i as [ | i ]; simpl in H1.
    + injection H1 as <-. rewrite Forall_forall in He.
      apply He. eapply nth_error_In. exact H2.
    + apply (IH i j); [ lia | assumption | assumption ].
Qed.

(** Claim C6, as the code has it. The records of a successful batch come in
    the order of the sorted batch: along [applied_edits] the original start
    bytes never decrease. They increase strictly when the ranges of the batch
    are those of the data model, [start <= end] with one point for one byte
    offset; the validator itself lets two ranges with the same start byte
    through when neither holds a byte. *)
Theorem applied_edits_in_sorted_order (this this' : Tree) (edits : list Edit)
  (res : EditResult) :
  Tree_edit this edits = (this', Ok res) ->
  forall i j a b,
    (i < j)%nat ->
    nth_error (applied_edits res) i = Some a ->
    nth_error (applied_edits res) j = Some b ->
    byte (start (before a)) <= byte (start (before b))
    /\ ((forall e, In e edits -> well_formed (range e)) ->
        byte (start (before a)) < byte (start (before b))).
Proof.
  intros H i j a b Hij Ha Hb.
  apply Tree_edit_Ok_inv in H.
  destruct H as ( Hok & t' & src' & nt & Happly & _ ).
  apply _apply_all_edits_loop_before in Happly.
  destruct (Forall2_nth_error_l _ _ _ Happly i a Ha) as (e1 & He1 & Hb1 & _).
  destruct (Forall2_nth_error_l _ _ _ Happly j b Hb) as (e2 & He2 & Hb2 & _).
  rewrite Hb1, Hb2. split.
  - apply (ascending_nth (std_sort edit_comp edits) i j e1 e2); try assumption.
    apply std_sort_ascending.
  - intros Hwf.
    apply (strictly_ascending_nth (std_sort edit_comp edits) i j e1 e2); try assumption.
    apply valid_sorted_strict; assumption.
Qed.

(** Claim C4. A batch that passes validation gives the same result in every
    order of submission: the sorted batch is the same, and so are the
    document after the call (its text in particular) and the value
    returned. The ranges are those of the data model. *)
Theorem edit_tree_submission_order (this : Tree) (edits edits' : list Edit) :
  Permutation edits edits' ->
  (forall e, In e edits -> well_formed (range e)) ->
  _check_edits (std_sort edit_comp edits) = Ok tt ->
  Tree_edit this edits' = Tree_edit this edits
  /\ source_ (fst (Tree_edit this edits')) = source_ (fst (Tree_edit this edits)).
Proof.
  intros Hp Hwf Hok.
  assert (Hsort : std_sort edit_comp edits' = std_sort edit_comp edits).
  { apply std_sort_permutation_invariant; [ exact Hp | ].
    apply valid_sorted_strict; assumption. }
  assert (Heq : Tree_edit this edits' = Tree_edit this edits).
  { unfold Tree_edit, edit_tree. rewrite Hsort. reflexivity. }
  split; [ exact Heq | rewrite Heq; reflexivity ].
Qed.

(** ** Scenarios *)

(** Claim C5. On the buffer "1 + 2" the batch that replaces bytes [0,1) by
    "15" and bytes [4,5) by "7", submitted in either order, leaves the
    buffer "15 + 7"; the second record has [before] at bytes 4..5 and
    [after] at bytes 5..6. The parser is one that returns a tree, as the
    wrapper expects of it. *)
Theorem scenario_two_literals (t : TSTree) (p : TSParser) (batch : list Edit) :
  let this := {| tree := Some t; source_ := bytes "1 + 2"; parser_ := p |} in
  let edit_one := replace_at 0 0 0 1 "15" in
  let edit_two := replace_at 0 4 4 1 "7" in
  (forall old_tree src, ts_parser_parse_string p old_tree src <> None) ->
  batch = [edit_one; edit_two] \/ batch = [edit_two; edit_one] ->
  exists raw_tree ranges a1 a2,
    Tree_edit this batch
    = ({| tree := Some raw_tree; source_ := bytes "15 + 7"; parser_ := p |},
       Ok {| changed_ranges := ranges; applied_edits := [a1; a2] |})
    /\ byte (start (before a2)) = 4 /\ byte (end_ (before a2)) = 5
    /\ byte (start (after a2)) = 5 /\ byte (end_ (after a2)) = 6.
Proof.
  intros this edit_one edit_two Hparse Hbatch.
  assert (Hsort : std_sort edit_comp batch = [edit_one; edit_two])
    by (destruct Hbatch; subst batch; reflexivity).
  unfold Tree_edit, edit_tree. rewrite Hsort.
  assert (Hcheck : _check_edits [edit_one; edit_two] = Ok tt) by reflexivity.
  rewrite Hcheck. cbn [bind].
  unfold _apply_all_edits, this, source. cbn [source_ tree parser_ parser].
  match goal with
  | |- context [ _apply_all_edits_loop ?es ?adj ?src ?tr ] =>
      let r := eval vm_compute in (_apply_all_edits_loop es adj src tr) in
      change (_apply_all_edits_loop es adj src tr) with r
  end.
  cbn [bind]. unfold parse_string.
  match goal with
  | |- context [ ts_parser_parse_string p ?o ?s ] =>
      destruct (ts_parser_parse_string p o s) as [ raw_tree | ] eqn:E;
      [ | exfalso; exact (Hparse _ _ E) ]
  end.
  cbn [bind raw tree].
  do 4 eexists. split; [ reflexivity | ]. repeat split.
Qed.

(** ** Coordinates of the records *)

Lemma size_nonneg (s : std_string) : 0 <= size s.
Proof. unfold size. lia. Qed.

Lemma size_app (s1 s2 : std_string) : size (s1 ++ s2) = size s1 + size s2.
Proof. unfold size. rewrite length_app. lia. Qed.

Lemma size_firstn_skipn (s : std_string) (pos n : Z) :
  0 <= pos -> 0 <= n -> pos + n <= size s ->
  size (firstn (Z.to_nat n) (skipn (Z.to_nat pos) s)) = n.
Proof.
  unfold size. intros Hpos Hn Hle.
  rewrite length_firstn, length_skipn. lia.
Qed.

Lemma size_patched (edit : Edit) (src : std_string) :
  0 <= byte (start (range edit)) <= byte (end_ (range edit)) ->
  byte (end_ (range edit)) <= size src ->
  size src < 2 ^ 32 ->
  size (patched edit src)
  = size src + size (replacement edit)
    - (byte (end_ (range edit)) - byte (start (range edit))).
Proof.
  intros Hse Hle Hsmall. unfold patched.
  rewrite wrap32_small by lia.
  rewrite !size_app. unfold size in *.
  rewrite length_firstn, !length_skipn. lia.
Qed.

Lemma _adjust_edit_init (edit : Edit) :
  0 <= byte (start (range edit)) < 2 ^ 32 ->
  0 <= byte (end_ (range edit)) < 2 ^ 32 ->
  _adjust_edit edit Adjustment_init = edit.
Proof.
  destruct edit as [ [ [ ps bs ] [ pe be ] ] r ]. simpl. intros Hs He.
  unfold _adjust_edit, shift_byte. simpl.
  rewrite !Z.add_0_r, !wrap32_small by lia. reflexivity.
Qed.

(** With another row than the one of the last edit, the adjuster moves the
    byte offsets and leaves the points alone. *)
Lemma _adjust_edit_other_row (edit : Edit) (adjustment : Adjustment) :
  row (last_point adjustment) <> row (point (start (range edit))) ->
  _adjust_edit edit adjustment
  = {| range :=
         {| start := shift_byte (cumulative_byte_change adjustment) (start (range edit));
            end_ := shift_byte (cumulative_byte_change adjustment) (end_ (range edit)) |};
       replacement := replacement edit |}.
Proof.
  intros Hrow. unfold _adjust_edit.
  destruct (Z.eqb_spec (row (last_point adjustment)) (row (point (start (range edit)))));
    [ contradiction | ].
  rewrite andb_false_r. reflexivity.
Qed.

Lemma applied_exact (edit : Edit) (src : std_string) :
  0 <= byte (start (range edit)) <= byte (end_ (range edit)) ->
  byte (end_ (range edit)) <= size src ->
  size src < 2 ^ 32 ->
  0 <= column (point (start (range edit))) ->
  column (point (end_ (range edit))) - column (point (start (range edit)))
  = byte (end_ (range edit)) - byte (start (range edit)) ->
  column (point (start (range edit))) + size (replacement edit) < 2 ^ 32 ->
  byte (start (range edit)) + size (replacement edit) < 2 ^ 32 ->
  byte (end_ (after (applied edit src)))
  = byte (start (range edit)) + size (replacement edit)
  /\ column (point (end_ (after (applied edit src))))
     = column (point (start (range edit))) + size (replacement edit)
  /\ size (old_source (applied edit src))
     = byte (end_ (range edit)) - byte (start (range edit)).
Proof.
  intros Hse Hle Hsmall Hc Hw Hcr Hbr.
  pose proof (size_nonneg (replacement edit)) as Hr.
  unfold applied. cbn [after end_ byte point column old_source].
  rewrite (wrap32_small (byte (end_ (range edit)) - byte (start (range edit)))) by lia.
  repeat split.
  - rewrite wrap32_small; lia.
  - rewrite wrap32_small; lia.
  - apply size_firstn_skipn; lia.
Qed.

(** One turn of the loop of [_apply_all_edits]. *)
Lemma _apply_all_edits_loop_cons_inv (edit : Edit) (edits : list Edit)
  (adjustment : Adjustment) (src src' : std_string) (old_tree old_tree' : option TSTree)
  (aes : list AppliedEdit) :
  _apply_all_edits_loop (edit :: edits) adjustment src old_tree = Ok (aes, old_tree', src') ->
  exists edit' x a t1 aes',
    edit' = _adjust_edit edit adjustment
    /\ x = applied edit' src
    /\ a = {| before := range edit;
              after := after x;
              old_source := old_source x;
              applied_replacement := applied_replacement x |}
    /\ aes = a :: aes'
    /\ _apply_all_edits_loop edits
         (_update_adjustment adjustment a (point (end_ (range edit'))))
         (patched edit' src) t1
       = Ok (aes', old_tree', src').
Proof.
  cbn [_apply_all_edits_loop].
  destruct (_apply_edit (_adjust_edit edit adjustment) old_tree src)
    as [ [ [ x t1 ] s1 ] | ex ] eqn:E1; cbn [bind]; [ | discriminate ].
  apply _apply_edit_Ok_inv in E1. destruct E1 as ( _ & Hx & Hs1 & _ ).
  match goal with
  | |- context [ _apply_all_edits_loop edits ?adj s1 t1 ] =>
      destruct (_apply_all_edits_loop edits adj s1 t1)
        as [ [ [ aes' t2 ] s2 ] | ex ] eqn:E2; cbn [bind]; [ | discriminate ]
  end.
  intros H. injection H as <- <- <-.
  eexists (_adjust_edit edit adjustment), x, _, t1, aes'.
  split; [ reflexivity | ]. split; [ exact Hx | ]. split; [ reflexivity | ].
  split; [ reflexivity | ]. rewrite <- Hs1. exact E2.
Qed.

(** Claim C2, as the code has it, for the second edit of the sorted batch
    when the first edit lies on another row. The start of [after] is the
    start of [before] moved by the byte delta of the first edit, with the
    same row and column; the end of [after] is moved by that delta and by the
    edit's own byte delta, and its column by the edit's own delta. *)
Theorem later_edit_on_other_row (this this' : Tree) (edits : list Edit)
  (res : EditResult) (a1 a2 : AppliedEdit) (rest : list AppliedEdit) :
  Tree_edit this edits = (this', Ok res) ->
  applied_edits res = a1 :: a2 :: rest ->
  (forall e, In e edits -> fits (source_ this) e) ->
  row (point (start (before a1))) <> row (point (start (before a2))) ->
  byte (start (after a2)) = byte (start (before a2)) + byte_delta a1
  /\ byte (end_ (after a2)) = byte (end_ (before a2)) + byte_delta a1 + byte_delta a2
  /\ point (start (after a2)) = point (start (before a2))
  /\ row (point (end_ (after a2))) = row (point (end_ (before a2)))
  /\ column (point (end_ (after a2))) = column (point (end_ (before a2))) + byte_delta a2.
Proof.
  intros H Hres Hfits Hrow.
  apply Tree_edit_Ok_inv in H.
  destruct H as ( Hok & t' & src' & nt & Happly & _ ).
  rewrite Hres in Happly.
  pose proof (std_sort_ascending edits) as Hasc.
  assert (HfitsS : forall e, In e (std_sort edit_comp edits) -> fits (source_ this) e).
  { intros e Hin. apply Hfits. apply (Permutation_in _ (std_sort_perm edits)). exact Hin. }
  rewrite _check_edits_Ok in Hok.
  set (src := source_ this) in *.
  generalize dependent (std_sort edit_comp edits). intros sorted Hok Happly Hasc HfitsS.
  pose proof (_apply_all_edits_loop_before _ _ _ _ _ _ _ Happly) as HF.
  inversion HF as [ | ? e1 ? sorted1 [ Hb1 _ ] HF1 ]; subst.
  inversion HF1 as [ | ? e2 ? sorted2 [ Hb2 _ ] HF2 ]; subst.
  clear HF HF1 HF2.
  assert (F1 : fits src e1) by (apply HfitsS; left; reflexivity).
  assert (F2 : fits src e2) by (apply HfitsS; right; left; reflexivity).
  destruct F1 as ( Hse1 & Hle1 & Hc1 & Hw1 & Hsrc & Hr1 ).
  destruct F2 as ( Hse2 & Hle2 & Hc2 & Hw2 & _ & Hr2 ).
  pose proof (size_nonneg (replacement e1)) as Hr1'.
  pose proof (size_nonneg (replacement e2)) as Hr2'.
  destruct (Hok 0%nat e1 eq_refl) as ( _ & Hm1 & Hov1 ).
  specialize (Hov1 1%nat e2 eq_refl (Nat.neq_0_succ 0)).
  assert (Hord : byte (end_ (range e1)) <= byte (start (range e2))).
  { apply no_overlap_ordered; [ unfold nonempty; lia | | exact Hov1 ].
    inversion Hasc as [ | ? ? _ Hall ]; subst.
    inversion Hall as [ | ? ? Hle _ ]; subst. exact Hle. }
  assert (Hrow1 : row (point (end_ (range e1))) = row (point (start (range e1)))).
  { unfold is_multiline in Hm1. apply orb_false_elim in Hm1. destruct Hm1 as [ Hm1 _ ].
    apply negb_false_iff in Hm1. apply Z.eqb_eq in Hm1. symmetry. exact Hm1. }
  clear Hok Hasc HfitsS Hfits Hov1 Hm1.
  unfold _apply_all_edits in Happly.
  apply _apply_all_edits_loop_cons_inv in Happly.
  destruct Happly as ( e1' & x1 & r1 & t1 & aes1 & He1' & Hx1 & Hr1eq & Haes1 & Hloop ).
  rewrite _adjust_edit_init in He1' by lia. subst e1'.
  injection Haes1 as Ha1 Haes1. subst aes1.
  destruct (applied_exact e1 src) as ( He1 & Hcol1 & Hold1 ); try lia.
  assert (Hrep1 : applied_replacement x1 = replacement e1) by (rewrite Hx1; reflexivity).
  rewrite <- Hx1 in He1, Hcol1, Hold1. clear Hx1.
  remember (_update_adjustment Adjustment_init r1 (point (end_ (range e1)))) as adj1
    eqn:Hadj1.
  remember (size (replacement e1)
            - (byte (end_ (range e1)) - byte (start (range e1)))) as d1 eqn:Hd1.
  assert (Hcum : cumulative_byte_change adj1 = d1).
  { rewrite Hadj1, Hr1eq. unfold _update_adjustment.
    cbn [cumulative_byte_change Adjustment_init after before end_ byte].
    rewrite He1, to_int_wrap32, Z.add_0_l.
    rewrite (to_int_small (_ - _)) by lia. rewrite to_int_small by lia. lia. }
  assert (Hlast : row (last_point adj1) <> row (point (start (range e2)))).
  { rewrite Hadj1. unfold _update_adjustment. cbn [last_point].
    rewrite Hrow1. rewrite Hb1, Hb2 in Hrow. exact Hrow. }
  clear Hadj1.
  apply _apply_all_edits_loop_cons_inv in Hloop.
  destruct Hloop as ( e2' & x2 & r2 & t2 & aes2 & He2' & Hx2 & Hr2eq & Haes2 & _ ).
  rewrite (_adjust_edit_other_row e2 adj1 Hlast), Hcum in He2'.
  injection Haes2 as Ha2 _.
  assert (Hs2 : byte (start (range e2')) = byte (start (range e2)) + d1).
  { rewrite He2'. cbn [range start byte shift_byte]. apply wrap32_small. lia. }
  assert (Hn2 : byte (end_ (range e2')) = byte (end_ (range e2)) + d1).
  { rewrite He2'. cbn [range end_ byte shift_byte]. apply wrap32_small. lia. }
  assert (Hps2 : point (start (range e2')) = point (start (range e2)))
    by (rewrite He2'; reflexivity).
  assert (Hpe2 : point (end_ (range e2')) = point (end_ (range e2)))
    by (rewrite He2'; reflexivity).
  assert (Hrep2 : replacement e2' = replacement e2) by (rewrite He2'; reflexivity).
  clear He2'.
  pose proof (size_patched e1 src ltac:(lia) ltac:(lia) ltac:(lia)) as Hsize1.
  destruct (applied_exact e2' (patched e1 src)) as ( He2 & Hcol2 & Hold2 );
    rewrite ?Hs2, ?Hn2, ?Hps2, ?Hpe2, ?Hrep2; try lia.
  assert (Hst2 : start (after x2) = start (range e2')) by (rewrite Hx2; reflexivity).
  assert (Hrw2 : row (point (end_ (after x2))) = row (point (end_ (range e2'))))
    by (rewrite Hx2; reflexivity).
  assert (Hrep2' : applied_replacement x2 = replacement e2')
    by (rewrite Hx2; reflexivity).
  rewrite <- Hx2 in He2, Hcol2, Hold2. clear Hx2.
  rewrite Ha1, Ha2, Hr1eq, Hr2eq. unfold byte_delta.
  cbn [before after old_source applied_replacement].
  rewrite Hold1, Hold2, He2, Hcol2, Hst2, Hrw2, Hrep1, Hrep2', Hrep2, Hs2, Hps2, Hpe2.
  repeat split; lia.
Qed.

(** Claim C3. Three edits on one row, each replacing one byte by two, on the
    buffer "a b c". The claim asks for the third edit to start at column
    4 + 1 + 1 = 6 after the batch; the adjuster keeps the width change of the
    last edit only and moves it to column 5. (The byte offset, 7 where 6 is
    due, and the text, "aa bb ccc", are off as well: the running byte change
    is added to itself at every edit after the first.) *)
Theorem third_edit_on_one_row (t : TSTree) :
  let batch :=
    [replace_at 0 0 0 1 "aa"; replace_at 0 2 2 1 "bb"; replace_at 0 4 4 1 "cc"] in
  _check_edits (std_sort edit_comp batch) = Ok tt
  /\ exists a1 a2 a3 old_tree',
      _apply_all_edits (std_sort edit_comp batch) (bytes "a b c") (Some t)
      = Ok ([a1; a2; a3], old_tree', bytes "aa bb ccc")
      /\ column (point (start (before a3))) = 4
      /\ byte_delta a1 = 1
      /\ byte_delta a2 = 1
      /\ column (point (start (after a3))) = 5
      /\ byte (start (after a3)) = 7.
Proof.
  split; [ reflexivity | ].
  do 4 eexists. split; [ vm_compute; reflexivity | ].
  repeat split.
Qed.

(** * Further properties of the code *)

(** ** Comparison operators *)

(** [operator<] of [Point] is a strict total order, and the other five
    operators are the ones that belong to it. *)
Theorem Point_operators_agree (a b c : Point) :
  Point_order.ltb a a = false
  /\ (Point_order.ltb a b = true -> Point_order.ltb b c = true ->
      Point_order.ltb a c = true)
  /\ (Point_order.ltb a b = false -> Point_order.ltb b a = false ->
      Point_ops.eqb a b = true)
  /\ Point_order.gtb a b = Point_order.ltb b a
  /\ Point_order.leb a b = negb (Point_order.ltb b a)
  /\ Point_order.geb a b = negb (Point_order.ltb a b)
  /\ Point_order.leb a b = Point_order.ltb a b || Point_ops.eqb a b.
Proof.
  destruct a as [ ra ca ], b as [ rb cb ], c as [ rc cc ].
  unfold Point_order.ltb, Point_order.leb, Point_order.gtb, Point_order.geb,
    Point_ops.eqb; simpl.
  repeat split; intros;
    repeat match goal with
    | H : context [ ?x <? ?y ] |- _ => destruct (Z.ltb_spec x y)
    | H : context [ ?x =? ?y ] |- _ => destruct (Z.eqb_spec x y)
    | |- context [ ?x <? ?y ] => destruct (Z.ltb_spec x y)
    | |- context [ ?x <=? ?y ] => destruct (Z.leb_spec x y)
    | |- context [ ?x >? ?y ] => destruct (Z.gtb_spec x y)
    | |- context [ ?x >=? ?y ] => destruct (Z.geb_spec x y)
    | |- context [ ?x =? ?y ] => destruct (Z.eqb_spec x y)
    end; simpl in *; try reflexivity; try discriminate; try lia.
Qed.

Lemma Point_eqb_eq (a b : Point) : Point_ops.eqb a b = true <-> a = b.
Proof.
  destruct a as [ ra ca ], b as [ rb cb ]. unfold Point_ops.eqb. simpl.
  rewrite andb_true_iff, !Z.eqb_eq. split.
  - intros [ -> -> ]. reflexivity.
  - intros H. injection H as -> ->. split; reflexivity.
Qed.

Lemma Location_eqb_eq (a b : Location) : Location_ops.eqb a b = true <-> a = b.
Proof.
  destruct a as [ pa ba ], b as [ pb bb ]. unfold Location_ops.eqb. simpl.
  rewrite andb_true_iff, Point_eqb_eq, Z.eqb_eq. split.
  - intros [ -> -> ]. reflexivity.
  - intros H. injection H as -> ->. split; reflexivity.
Qed.

Lemma Range_eqb_eq (a b : Range) : Range_ops.eqb a b = true <-> a = b.
Proof.
  destruct a as [ sa ea ], b as [ sb eb ]. unfold Range_ops.eqb. simpl.
  rewrite andb_true_iff, !Location_eqb_eq. split.
  - intros [ -> -> ]. reflexivity.
  - intros H. injection H as -> ->. split; reflexivity.
Qed.

Lemma vector_eqb_eq {A : Type} (eqb : A -> A -> bool) :
  (forall x y, eqb x y = true <-> x = y) ->
  forall lhs rhs, vector_eqb eqb lhs rhs = true <-> lhs = rhs.
Proof.
  intros Heqb. unfold vector_eqb.
  induction lhs as [ | x lhs IH ]; intros [ | y rhs ]; simpl.
  - split; reflexivity.
  - split; discriminate.
  - split; discriminate.
  - specialize (IH rhs). rewrite andb_true_iff in IH |- *.
    rewrite andb_true_iff, Heqb. split.
    + intros ( Hlen & -> & Hall ). f_equal. apply IH. split; assumption.
    + intros H. injection H as -> ->.
      destruct (proj2 IH eq_refl) as [ Hlen Hall ]. repeat split; assumption.
Qed.

Lemma string_eqb_eq (s1 s2 : std_string) : string_eqb s1 s2 = true <-> s1 = s2.
Proof. apply vector_eqb_eq. apply Ascii.eqb_eq. Qed.

Lemma AppliedEdit_eqb_eq (a b : AppliedEdit) : AppliedEdit_ops.eqb a b = true <-> a = b.
Proof.
  destruct a as [ ba aa oa ra ], b as [ bb ab ob rb ]. unfold AppliedEdit_ops.eqb. simpl.
  rewrite !andb_true_iff, !Range_eqb_eq, !string_eqb_eq. split.
  - intros [ [ [ -> -> ] -> ] -> ]. reflexivity.
  - intros H. injection H as -> -> -> ->. repeat split.
Qed.

(** [operator==] of [Edit] holds exactly of equal edits: same rows, columns
    and byte offsets at both ends and the same replacement. *)
Theorem Edit_eqb_decides_equality (lhs rhs : Edit) :
  (Edit_ops.eqb lhs rhs = true <-> lhs = rhs)
  /\ (Edit_ops.neqb lhs rhs = true <-> lhs <> rhs).
Proof.
  assert (Heq : Edit_ops.eqb lhs rhs = true <-> lhs = rhs).
  { destruct lhs as [ r1 s1 ], rhs as [ r2 s2 ]. unfold Edit_ops.eqb. simpl.
    rewrite andb_true_iff, Range_eqb_eq, string_eqb_eq. split.
    - intros [ -> -> ]. reflexivity.
    - intros H. injection H as -> ->. split; reflexivity. }
  split; [ exact Heq | ].
  unfold Edit_ops.neqb. rewrite negb_true_iff, <- Heq.
  destruct (Edit_ops.eqb lhs rhs); split; congruence.
Qed.

(** [operator==] of [EditResult] holds exactly of equal results: the same
    records and the same changed ranges, in the same order. *)
Theorem EditResult_eqb_decides_equality (self other : EditResult) :
  (EditResult_ops.eqb self other = true <-> self = other)
  /\ (EditResult_ops.neqb self other = true <-> self <> other).
Proof.
  assert (Heq : EditResult_ops.eqb self other = true <-> self = other).
  { destruct self as [ c1 a1 ], other as [ c2 a2 ]. unfold EditResult_ops.eqb. simpl.
    rewrite andb_true_iff.
    rewrite (vector_eqb_eq AppliedEdit_ops.eqb AppliedEdit_eqb_eq).
    rewrite (vector_eqb_eq Range_ops.eqb Range_eqb_eq). split.
    - intros [ -> -> ]. reflexivity.
    - intros H. injection H as -> ->. split; reflexivity. }
  split; [ exact Heq | ].
  unfold EditResult_ops.neqb. rewrite negb_true_iff, <- Heq.
  destruct (EditResult_ops.eqb self other); split; congruence.
Qed.

(** The order of [Location] looks at the byte offset alone while its
    equality looks at the point too: [a <= b] and [a >= b] together say that
    the byte offsets agree, which equal locations satisfy and locations with
    different points may satisfy as well. *)
Theorem Location_order_is_by_byte (a b : Location) :
  (Location_ops.leb a b && Location_ops.geb a b = true <-> byte a = byte b)
  /\ (Location_ops.eqb a b = true ->
      Location_ops.leb a b = true /\ Location_ops.geb a b = true)
  /\ Location_ops.ltb a b = negb (Location_ops.geb a b)
  /\ Location_ops.gtb a b = Location_ops.ltb b a
  /\ Location_ops.leb (mkLocation 0 0 5) (mkLocation 0 1 5)
     && Location_ops.geb (mkLocation 0 0 5) (mkLocation 0 1 5)
     && negb (Location_ops.eqb (mkLocation 0 0 5) (mkLocation 0 1 5)) = true.
Proof.
  unfold Location_ops.leb, Location_ops.geb, Location_ops.ltb, Location_ops.gtb.
  repeat split.
  - rewrite andb_true_iff, Z.leb_le, Z.geb_le. lia.
  - intros ->. rewrite Z.leb_refl. rewrite Z.geb_leb, Z.leb_refl. reflexivity.
  - apply Location_eqb_eq in H. subst b. apply Z.leb_refl.
  - apply Location_eqb_eq in H. subst b. rewrite Z.geb_leb. apply Z.leb_refl.
  - rewrite Z.geb_leb. destruct (Z.ltb_spec (byte a) (byte b));
      destruct (Z.leb_spec (byte b) (byte a)); simpl; try reflexivity; lia.
  - rewrite Z.gtb_ltb. reflexivity.
Qed.

(** ** [Range::overlaps] *)

(** Of two ranges that hold a byte each, [overlaps] says whether they have a
    byte in common. *)
Theorem overlaps_iff_common_byte (a b : Range) :
  nonempty a -> nonempty b ->
  (overlaps a b = true <->
   exists x, byte (start a) <= x < byte (end_ a) /\ byte (start b) <= x < byte (end_ b)).
Proof.
  unfold nonempty. intros Ha Hb. rewrite overlaps_cases.
  destruct (Z.gtb_spec (byte (start a)) (byte (start b))) as [ Hgt | Hle ].
  - rewrite Z.gtb_lt. split.
    + intros H. exists (byte (start a)). lia.
    + intros (x & Hxa & Hxb). lia.
  - rewrite Z.gtb_lt. split.
    + intros H. exists (byte (start b)). lia.
    + intros (x & Hxa & Hxb). lia.
Qed.

(** Between ranges that hold a byte each, [overlaps] does not depend on which
    of the two is asked, and two such ranges that touch, the one ending where
    the other starts, do not overlap. *)
Theorem overlaps_symmetric_between_nonempty_ranges (a b : Range) :
  nonempty a -> nonempty b ->
  overlaps a b = overlaps b a
  /\ (byte (end_ a) = byte (start b) -> overlaps a b = false /\ overlaps b a = false).
Proof.
  intros Ha Hb.
  pose proof (overlaps_sym_nonempty a b Ha Hb) as Hsym.
  split; [ exact Hsym | ].
  intros Htouch.
  assert (H : overlaps a b = false).
  { apply overlaps_touching; [ unfold nonempty in Ha; lia | exact Htouch ]. }
  split; [ exact H | rewrite <- Hsym; exact H ].
Qed.

(** ** EditValidator *)

Lemma pairwise_iff_ForallOrdPairs (edits : list Edit) :
  (forall i j e1 e2, i <> j -> nth_error edits i = Some e1 ->
                     nth_error edits j = Some e2 ->
                     overlaps (range e1) (range e2) = false)
  <-> ForallOrdPairs disjoint edits.
Proof.
  induction edits as [ | a edits IH ].
  - split; [ constructor | ]. intros _ [ | i ] j e1 e2 _ H; discriminate.
  - split.
    + intros H. constructor.
      * apply Forall_forall. intros y Hy.
        apply In_nth_error in Hy. destruct Hy as [ k Hk ].
        split.
        -- apply (H 0%nat (S k)); [ lia | reflexivity | exact Hk ].
        -- apply (H (S k) 0%nat); [ lia | exact Hk | reflexivity ].
      * apply IH. intros i j e1 e2 Hne H1 H2.
        apply (H (S i) (S j)); [ lia | exact H1 | exact H2 ].
    + intros H. inversion H as [ | ? ? Ha Hrest ]; subst.
      rewrite Forall_forall in Ha.
      intros [ | i ] [ | j ] e1 e2 Hne H1 H2; simpl in H1, H2.
      * lia.
      * injection H1 as <-. apply (Ha e2). eapply nth_error_In. exact H2.
      * injection H2 as <-. apply (Ha e1). eapply nth_error_In. exact H1.
      * apply (proj2 IH Hrest i j e1 e2); [ lia | exact H1 | exact H2 ].
Qed.

Lemma ForallOrdPairs_disjoint_perm (l l' : list Edit) :
  Permutation l l' -> ForallOrdPairs disjoint l -> ForallOrdPairs disjoint l'.
Proof.
  induction 1 as [ | x l l' Hp IH | x y l | l l' l'' Hp1 IH1 Hp2 IH2 ]; intros H.
  - constructor.
  - inversion H as [ | ? ? Hx Hl ]; subst. constructor.
    + apply (Permutation_Forall Hp). exact Hx.
    + apply IH. exact Hl.
  - inversion H as [ | ? ? Hy Hxl ]; subst.
    inversion Hxl as [ | ? ? Hx Hl ]; subst.
    inversion Hy as [ | ? ? Hyx Hyl ]; subst.
    constructor; [ constructor | constructor ]; try assumption.
    destruct Hyx as [ H1 H2 ]. split; assumption.
  - apply IH2, IH1, H.
Qed.

Lemma _check_edits_Ok_pairs (edits : list Edit) :
  _check_edits edits = Ok tt <->
  Forall (fun e => is_zero_sized e = false /\ is_multiline e = false) edits
  /\ ForallOrdPairs disjoint edits.
Proof.
  rewrite _check_edits_Ok, <- pairwise_iff_ForallOrdPairs. split.
  - intros H. split.
    + apply Forall_forall. intros e He.
      apply In_nth_error in He. destruct He as [ i Hi ].
      destruct (H i e Hi) as ( Hz & Hm & _ ). split; assumption.
    + intros i j e1 e2 Hne H1 H2.
      destruct (H i e1 H1) as ( _ & _ & Hov ). apply (Hov j e2 H2 Hne).
  - intros [ Hall Hpairs ] i e1 Hi.
    rewrite Forall_forall in Hall.
    destruct (Hall e1 (nth_error_In _ _ Hi)) as [ Hz Hm ].
    repeat split; try assumption.
    intros j e2 Hj Hne. apply (Hpairs i j e1 e2 Hne Hi Hj).
Qed.

(** Whether a batch passes validation does not depend on the order of its
    edits; in particular the sort that [edit_tree] runs first does not change
    what is accepted. *)
Theorem validation_accepts_regardless_of_order (edits edits' : list Edit) :
  Permutation edits edits' ->
  (_check_edits edits = Ok tt <-> _check_edits edits' = Ok tt)
  /\ (_check_edits (std_sort edit_comp edits) = Ok tt <-> _check_edits edits = Ok tt).
Proof.
  assert (Hperm : forall l l', Permutation l l' ->
                               _check_edits l = Ok tt -> _check_edits l' = Ok tt).
  { intros l l' Hp. rewrite !_check_edits_Ok_pairs. intros [ Hall Hpairs ]. split.
    - apply (Permutation_Forall Hp). exact Hall.
    - apply (ForallOrdPairs_disjoint_perm l l' Hp). exact Hpairs. }
  intros Hp. split; split.
  - apply Hperm. exact Hp.
  - apply Hperm. apply Permutation_sym. exact Hp.
  - apply Hperm. apply std_sort_perm.
  - apply Hperm. apply Permutation_sym, std_sort_perm.
Qed.

(** A batch that holds the same edit at two positions is rejected when the
    range of the edit holds a byte: such a range overlaps itself. *)
Theorem duplicate_edit_is_rejected (edits : list Edit) (i j : nat) (edit : Edit) :
  i <> j ->
  nth_error edits i = Some edit ->
  nth_error edits j = Some edit ->
  nonempty (range edit) ->
  overlaps (range edit) (range edit) = true /\ _check_edits edits <> Ok tt.
Proof.
  intros Hne Hi Hj Hn.
  assert (Hself : overlaps (range edit) (range edit) = true).
  { rewrite overlaps_cases. unfold nonempty in Hn.
    destruct (Z.gtb_spec (byte (start (range edit))) (byte (start (range edit))));
      [ lia | ].
    apply Z.gtb_lt. lia. }
  split; [ exact Hself | ].
  intros Hok. rewrite _check_edits_Ok in Hok.
  destruct (Hok i edit Hi) as ( _ & _ & Hov ).
  rewrite (Hov j edit Hj Hne) in Hself. discriminate.
Qed.

Lemma _forbid_overlap_Throw (i : nat) (edit1 : Edit) (rest : list Edit) (j : nat) :
  _forbid_overlap i edit1 j rest = Throw OverlappingEditException ->
  exists k edit2,
    nth_error rest k = Some edit2 /\ i <> (j + k)%nat
    /\ overlaps (range edit1) (range edit2) = true.
Proof.
  revert j. induction rest as [ | edit2 rest IH ]; intros j; simpl.
  - discriminate.
  - destruct (Nat.eqb_spec i j) as [ Hij | Hij ].
    + intros H. destruct (IH (S j) H) as (k & e & Hnth & Hne & Hov).
      exists (S k), e. repeat split; [ exact Hnth | lia | exact Hov ].
    + destruct (overlaps (range edit1) (range edit2)) eqn:Hov.
      * intros _. exists 0%nat, edit2. repeat split; [ lia | exact Hov ].
      * intros H. destruct (IH (S j) H) as (k & e & Hnth & Hne & Hov').
        exists (S k), e. repeat split; [ exact Hnth | lia | exact Hov' ].
Qed.

Lemma _check_edits_from_errors (edits rest : list Edit) (i : nat) :
  (forall k e, nth_error rest k = Some e -> nth_error edits (i + k) = Some e) ->
  match _check_edits_from edits i rest with
  | Ok _ => True
  | Throw ZeroSizedEditException =>
      exists e, In e edits /\ is_zero_sized e = true
  | Throw MultilineEditException =>
      exists e, In e edits /\ is_multiline e = true
  | Throw OverlappingEditException =>
      exists n m e1 e2,
        n <> m /\ nth_error edits n = Some e1 /\ nth_error edits m = Some e2
        /\ overlaps (range e1) (range e2) = true
  | Throw _ => False
  end.
Proof.
  revert i. induction rest as [ | edit1 rest IH ]; intros i Hsuffix; simpl.
  - exact I.
  - assert (Hin : nth_error edits i = Some edit1).
    { rewrite <- (Nat.add_0_r i). apply Hsuffix. reflexivity. }
    unfold _forbid_zero_sized_edit, _forbid_multiline_edit.
    destruct (is_zero_sized edit1) eqn:Hz; simpl.
    { exists edit1. split; [ eapply nth_error_In; exact Hin | exact Hz ]. }
    destruct (is_multiline edit1) eqn:Hm; simpl.
    { exists edit1. split; [ eapply nth_error_In; exact Hin | exact Hm ]. }
    destruct (_forbid_overlap_result i edit1 edits 0) as [ Ho | Ho ]; rewrite Ho; simpl.
    + apply IH. intros k e Hk.
      replace (S i + k)%nat with (i + S k)%nat by lia. apply Hsuffix. exact Hk.
    + apply _forbid_overlap_Throw in Ho. destruct Ho as (k & e2 & Hk & Hne & Hov).
      exists i, k, edit1, e2. repeat split; try assumption.
Qed.

(** Validation throws nothing but its three exceptions, and each of them
    names a fault that the batch has: a zero-sized edit, a multiline edit, or
    two edits at different positions of which the first overlaps the
    second. *)
Theorem validation_errors_are_sound (edits : list Edit) :
  match _check_edits edits with
  | Ok _ => True
  | Throw ZeroSizedEditException =>
      exists e, In e edits /\ is_zero_sized e = true
  | Throw MultilineEditException =>
      exists e, In e edits /\ is_multiline e = true
  | Throw OverlappingEditException =>
      exists n m e1 e2,
        n <> m /\ nth_error edits n = Some e1 /\ nth_error edits m = Some e2
        /\ overlaps (range e1) (range e2) = true
  | Throw _ => False
  end.
Proof.
  unfold _check_edits. apply _check_edits_from_errors.
  intros k e Hk. exact Hk.
Qed.

(** A batch of one edit is never rejected for overlap: the edit is not
    compared with itself. It passes exactly when it is neither zero-sized nor
    multiline. *)
Theorem single_edit_validation (edit : Edit) :
  _check_edits [edit] <> Throw OverlappingEditException
  /\ (_check_edits [edit] = Ok tt <->
      is_zero_sized edit = false /\ is_multiline edit = false).
Proof.
  unfold _check_edits. simpl.
  unfold _forbid_zero_sized_edit, _forbid_multiline_edit.
  destruct (is_zero_sized edit), (is_multiline edit); simpl;
    (split; [ discriminate | split; [ try discriminate; intros _; split; reflexivity
                                    | intros [ H1 H2 ]; try discriminate; reflexivity ] ]).
Qed.


(** ** SourcePatcher *)

Lemma firstn_size_app (s1 s2 : std_string) : firstn (Z.to_nat (size s1)) (s1 ++ s2) = s1.
Proof.
  unfold size. rewrite Nat2Z.id.
  induction s1 as [ | c s1 IH ]; simpl; [ reflexivity | rewrite IH; reflexivity ].
Qed.

Lemma skipn_size_app (s1 s2 : std_string) : skipn (Z.to_nat (size s1)) (s1 ++ s2) = s2.
Proof.
  unfold size. rewrite Nat2Z.id.
  induction s1 as [ | c s1 IH ]; simpl; [ reflexivity | exact IH ].
Qed.

Lemma wrap32_add_l (x y : Z) : wrap32 (wrap32 x + y) = wrap32 (x + y).
Proof. unfold wrap32. apply Zplus_mod_idemp_l. Qed.

Lemma applied_splice (edit : Edit) (A O C : std_string) :
  byte (start (range edit)) = size A ->
  byte (end_ (range edit)) = size A + size O ->
  size O < 2 ^ 32 ->
  old_source (applied edit (A ++ O ++ C)) = O
  /\ patched edit (A ++ O ++ C) = A ++ replacement edit ++ C
  /\ byte (end_ (after (applied edit (A ++ O ++ C))))
     = wrap32 (size A + size (replacement edit))
  /\ column (point (end_ (after (applied edit (A ++ O ++ C)))))
     = wrap32 (column (point (end_ (range edit))) + size (replacement edit) - size O).
Proof.
  intros Hs He HO. pose proof (size_nonneg O) as HO'.
  unfold applied, patched. cbn [old_source after end_ byte point column].
  rewrite Hs, He.
  replace (size A + size O - size A) with (size O) by lia.
  rewrite (wrap32_small (size O)) by lia.
  rewrite skipn_size_app, !firstn_size_app, skipn_size_app.
  repeat split; f_equal; lia.
Qed.

(** An edit whose range lies in the buffer replaces exactly the bytes of the
    range: with the buffer split as [A ++ O ++ C] at the two ends of the
    range, the new buffer is [A ++ replacement ++ C], the record keeps [O] as
    the old text, and [after] runs from the start of the range over the
    length of the replacement. *)
Theorem _apply_edit_splices (edit : Edit) (t : TSTree) (A O C : std_string) :
  byte (start (range edit)) = size A ->
  byte (end_ (range edit)) = size A + size O ->
  size A + size O < 2 ^ 32 ->
  size A + size (replacement edit) < 2 ^ 32 ->
  exists a t',
    _apply_edit edit (Some t) (A ++ O ++ C)
    = Ok (a, Some t', A ++ replacement edit ++ C)
    /\ before a = range edit
    /\ old_source a = O
    /\ applied_replacement a = replacement edit
    /\ start (after a) = start (range edit)
    /\ byte (end_ (after a)) = byte (start (range edit)) + size (replacement edit)
    /\ row (point (end_ (after a))) = row (point (end_ (range edit))).
Proof.
  intros Hs He Hb Hr.
  pose proof (size_nonneg A) as HA. pose proof (size_nonneg O) as HO.
  pose proof (size_nonneg (replacement edit)) as HR.
  destruct (applied_splice edit A O C Hs He ltac:(lia)) as ( Hold & Hpat & Hend & _ ).
  destruct (_apply_edit_Ok edit t (A ++ O ++ C)) as [ t' Ht' ].
  { rewrite Hs, !size_app. pose proof (size_nonneg C). lia. }
  exists (applied edit (A ++ O ++ C)), t'.
  rewrite Ht', Hpat. split; [ reflexivity | ].
  repeat split; try assumption.
  rewrite Hend, Hs. apply wrap32_small. lia.
Qed.

(** Undoing an edit. The edit that replaces the range [after] of a record by
    its old text gives the buffer from before the edit back, and the record
    of that edit is the first one turned around. *)
Theorem _apply_edit_undo (edit : Edit) (t : TSTree) (A O C : std_string) :
  byte (start (range edit)) = size A ->
  byte (end_ (range edit)) = size A + size O ->
  size A + size O < 2 ^ 32 ->
  size A + size (replacement edit) < 2 ^ 32 ->
  0 <= column (point (end_ (range edit))) < 2 ^ 32 ->
  exists a t1 a' t2,
    _apply_edit edit (Some t) (A ++ O ++ C)
    = Ok (a, Some t1, A ++ replacement edit ++ C)
    /\ _apply_edit (undo a) (Some t1) (A ++ replacement edit ++ C)
       = Ok (a', Some t2, A ++ O ++ C)
    /\ before a' = after a
    /\ after a' = before a
    /\ old_source a' = applied_replacement a
    /\ applied_replacement a' = old_source a.
Proof.
  intros Hs He Hb Hr Hc.
  pose proof (size_nonneg A) as HA. pose proof (size_nonneg O) as HO.
  pose proof (size_nonneg (replacement edit)) as HR.
  destruct (applied_splice edit A O C Hs He ltac:(lia)) as ( Hold & Hpat & Hend & Hcol ).
  destruct (_apply_edit_Ok edit t (A ++ O ++ C)) as [ t1 Ht1 ].
  { rewrite Hs, !size_app. pose proof (size_nonneg C). lia. }
  set (a := applied edit (A ++ O ++ C)) in *.
  assert (Hus : byte (start (range (undo a))) = size A) by exact Hs.
  assert (Hue : byte (end_ (range (undo a))) = size A + size (replacement edit)).
  { unfold undo. cbn [range]. rewrite Hend. apply wrap32_small. lia. }
  assert (Hur : replacement (undo a) = O) by exact Hold.
  destruct (applied_splice (undo a) A (replacement edit) C Hus Hue ltac:(lia))
    as ( Hold' & Hpat' & Hend' & Hcol' ).
  destruct (_apply_edit_Ok (undo a) t1 (A ++ replacement edit ++ C)) as [ t2 Ht2 ].
  { rewrite Hus, !size_app. pose proof (size_nonneg C). lia. }
  rewrite Hur in Hpat', Hend', Hcol'.
  exists a, t1, (applied (undo a) (A ++ replacement edit ++ C)), t2.
  rewrite Ht1, Hpat, Ht2, Hpat'.
  split; [ reflexivity | split; [ reflexivity | ] ].
  split; [ reflexivity | ].
  split; [ | split; [ exact Hold' | reflexivity ] ].
  change (before a) with (range edit).
  set (a' := applied (undo a) (A ++ replacement edit ++ C)) in *.
  assert (Hst : start (after a') = start (range edit)) by reflexivity.
  assert (Hrow : row (point (end_ (after a'))) = row (point (end_ (range edit))))
    by reflexivity.
  assert (Hc' : column (point (end_ (after a'))) = column (point (end_ (range edit)))).
  { rewrite Hcol'.
    change (column (point (end_ (range (undo a)))))
      with (column (point (end_ (after a)))).
    rewrite Hcol.
    match goal with
    | |- wrap32 (wrap32 ?x + ?y - ?z) = _ =>
        replace (wrap32 x + y - z) with (wrap32 x + (y - z)) by lia
    end.
    rewrite wrap32_add_l.
    match goal with
    | |- wrap32 ?x = ?c => replace x with c by lia
    end.
    apply wrap32_small. exact Hc. }
  assert (Hb' : byte (end_ (after a')) = byte (end_ (range edit))).
  { rewrite Hend', He. apply wrap32_small. lia. }
  destruct (after a') as [ s' [ [ r' c' ] b' ] ].
  destruct (range edit) as [ s [ [ er ec ] eb ] ].
  cbn [start end_ point row column byte] in Hst, Hrow, Hc', Hb'.
  rewrite Hst, Hrow, Hc', Hb'. reflexivity.
Qed.

(** An edit that starts in the buffer and ends past its end is not refused:
    it replaces the rest of the buffer, and the old text of the record is
    shorter than the range. *)
Theorem _apply_edit_clamps_at_the_end (edit : Edit) (t : TSTree) (src : std_string) :
  0 <= byte (start (range edit)) <= size src ->
  size src < byte (end_ (range edit)) < 2 ^ 32 ->
  exists a t',
    _apply_edit edit (Some t) src
    = Ok (a, Some t', firstn (Z.to_nat (byte (start (range edit)))) src ++ replacement edit)
    /\ old_source a = skipn (Z.to_nat (byte (start (range edit)))) src
    /\ size (old_source a) < byte (end_ (range edit)) - byte (start (range edit)).
Proof.
  intros Hs He.
  destruct (_apply_edit_Ok edit t src) as [ t' Ht' ]; [ lia | ].
  exists (applied edit src), t'. rewrite Ht'.
  assert (Hlen : (length (skipn (Z.to_nat (byte (start (range edit)))) src)
                  <= Z.to_nat (wrap32 (byte (end_ (range edit))
                                       - byte (start (range edit)))))%nat).
  { rewrite wrap32_small by lia. rewrite length_skipn. unfold size in *. lia. }
  assert (Hold : old_source (applied edit src)
                 = skipn (Z.to_nat (byte (start (range edit)))) src).
  { unfold applied. cbn [old_source]. apply firstn_all2. exact Hlen. }
  split; [ | split; [ exact Hold | ] ].
  - unfold patched. rewrite (skipn_all2 _ Hlen), app_nil_r. reflexivity.
  - rewrite Hold. unfold size in *. rewrite length_skipn. lia.
Qed.

(** An edit that starts past the end of the buffer makes [_apply_edit] throw
    [std::out_of_range], with the buffer and the tree untouched; the
    validator has no check for it, so a batch whose first edit, in sorted
    order, starts there passes validation and [Tree::edit] throws
    [std::out_of_range]. *)
Theorem edit_past_the_end_throws (this : Tree) (edits rest : list Edit) (edit : Edit) :
  _check_edits (std_sort edit_comp edits) = Ok tt ->
  std_sort edit_comp edits = edit :: rest ->
  0 <= byte (start (range edit)) < 2 ^ 32 ->
  0 <= byte (end_ (range edit)) < 2 ^ 32 ->
  size (source_ this) < byte (start (range edit)) ->
  _apply_edit edit (tree this) (source_ this) = Throw out_of_range
  /\ Tree_edit this edits
     = ({| tree := None; source_ := source_ this; parser_ := parser_ this |},
        Throw out_of_range).
Proof.
  intros Hok Hsort Hs He Hpast.
  assert (Hthrow : _apply_edit edit (tree this) (source_ this) = Throw out_of_range).
  { unfold _apply_edit, substr.
    destruct (Z.gtb_spec (byte (start (range edit))) (size (source_ this)));
      [ reflexivity | lia ]. }
  split; [ exact Hthrow | ].
  unfold Tree_edit, edit_tree. rewrite Hok. cbn [bind].
  rewrite Hsort. unfold _apply_all_edits, source. cbn [source_ _apply_all_edits_loop].
  rewrite (_adjust_edit_init edit Hs He), Hthrow. reflexivity.
Qed.

(** ** The batch as a whole *)

Lemma _adjust_edit_rows (edit : Edit) (adjustment : Adjustment) :
  row (point (start (range (_adjust_edit edit adjustment))))
  = row (point (start (range edit)))
  /\ row (point (end_ (range (_adjust_edit edit adjustment))))
     = row (point (end_ (range edit))).
Proof.
  unfold _adjust_edit.
  destruct (negb (last_width_change adjustment =? 0)
            && (row (last_point adjustment) =? row (point (start (range edit)))));
    split; reflexivity.
Qed.

Lemma _apply_all_edits_loop_rows (edits : list Edit) :
  forall (adjustment : Adjustment) (src src' : std_string)
         (old_tree old_tree' : option TSTree) (aes : list AppliedEdit),
    _apply_all_edits_loop edits adjustment src old_tree = Ok (aes, old_tree', src') ->
    Forall2 (fun a e => before a = range e
                        /\ row (point (start (after a))) = row (point (start (range e)))
                        /\ row (point (end_ (after a))) = row (point (end_ (range e))))
            aes edits.
Proof.
  induction edits as [ | edit edits IH ]; intros adjustment src src' old_tree old_tree' aes;
    simpl.
  - intros H. injection H as <- _ _. constructor.
  - destruct (_apply_edit (_adjust_edit edit adjustment) old_tree src)
      as [ [ [ a1 t1 ] s1 ] | e ] eqn:E1; simpl; [ | discriminate ].
    match goal with
    | |- context [ _apply_all_edits_loop edits ?adj s1 t1 ] =>
        destruct (_apply_all_edits_loop edits adj s1 t1)
          as [ [ [ aes' t2 ] s2 ] | e ] eqn:E2; simpl; [ | discriminate ]
    end.
    intros H. injection H as <- _ _.
    constructor; [ | eapply IH; exact E2 ].
    apply _apply_edit_Ok_inv in E1. destruct E1 as ( _ & -> & _ ).
    destruct (_adjust_edit_rows edit adjustment) as [ Hs He ].
    cbn [before after]. unfold applied. cbn [after start end_ point row].
    repeat split; assumption.
Qed.

(** A successful batch returns one record for every edit submitted, and no
    record leaves its row: both ends of [after] are on the row of
    [before]. *)
Theorem applied_edits_stay_on_their_row (this this' : Tree) (edits : list Edit)
  (res : EditResult) :
  Tree_edit this edits = (this', Ok res) ->
  length (applied_edits res) = length edits
  /\ Forall (fun a => row (point (end_ (before a))) = row (point (start (before a)))
                      /\ row (point (start (after a))) = row (point (start (before a)))
                      /\ row (point (end_ (after a))) = row (point (start (before a))))
            (applied_edits res).
Proof.
  intros H. apply Tree_edit_Ok_inv in H.
  destruct H as ( Hok & t' & src' & nt & Happly & _ ).
  apply _apply_all_edits_loop_rows in Happly.
  split.
  - rewrite (Forall2_length Happly).
    apply Permutation_length, std_sort_perm.
  - apply _check_edits_Ok_pairs in Hok. destruct Hok as [ Hall _ ].
    rewrite Forall_forall in Hall |- *. intros a Ha.
    apply In_nth_error in Ha. destruct Ha as [ i Hi ].
    destruct (Forall2_nth_error_l _ _ _ Happly i a Hi) as (e & He & Hb & Hrs & Hre).
    destruct (Hall e (nth_error_In _ _ He)) as [ _ Hm ].
    unfold is_multiline in Hm. apply orb_false_elim in Hm. destruct Hm as [ Hm _ ].
    apply negb_false_iff, Z.eqb_eq in Hm.
    rewrite Hb, Hrs, Hre. repeat split; congruence.
Qed.

Lemma _apply_edit_notifies (edit : Edit) (t : TSTree) (old_tree' : option TSTree)
  (src src' : std_string) (a : AppliedEdit) :
  _apply_edit edit (Some t) src = Ok (a, old_tree', src') ->
  exists input_edit,
    old_tree' = Some (ts_tree_edit t input_edit) /\ notifies input_edit a.
Proof.
  unfold _apply_edit, substr, replace.
  destruct (byte (start (range edit)) >? size src); simpl; [ discriminate | ].
  intros H. injection H as <- <- _.
  eexists. split; [ reflexivity | ].
  unfold notifies, _point. cbn.
  destruct edit as [ [ [ [ sr sc ] sb ] [ [ er ec ] eb ] ] r ]. cbn.
  repeat split.
Qed.

Lemma _apply_all_edits_loop_notifies (edits : list Edit) :
  forall (adjustment : Adjustment) (src src' : std_string) (t : TSTree)
         (old_tree' : option TSTree) (aes : list AppliedEdit),
    _apply_all_edits_loop edits adjustment src (Some t) = Ok (aes, old_tree', src') ->
    exists input_edits,
      old_tree' = Some (fold_left ts_tree_edit input_edits t)
      /\ Forall2 notifies input_edits aes.
Proof.
  induction edits as [ | edit edits IH ]; intros adjustment src src' t old_tree' aes;
    simpl.
  - intros H. injection H as <- <- _. exists []. split; [ reflexivity | constructor ].
  - destruct (_apply_edit (_adjust_edit edit adjustment) (Some t) src)
      as [ [ [ a1 t1 ] s1 ] | e ] eqn:E1; simpl; [ | discriminate ].
    destruct (_apply_edit_notifies _ _ _ _ _ _ E1) as (ie & -> & Hie).
    match goal with
    | |- context [ _apply_all_edits_loop edits ?adj s1 ?tr ] =>
        destruct (_apply_all_edits_loop edits adj s1 tr)
          as [ [ [ aes' t2 ] s2 ] | e ] eqn:E2; simpl; [ | discriminate ]
    end.
    intros H. injection H as <- <- _.
    destruct (IH _ _ _ _ _ _ E2) as (ies & -> & Hies).
    exists (ie :: ies). split; [ reflexivity | ].
    constructor; [ exact Hie | exact Hies ].
Qed.

(** The parser is asked once, after the last edit: it gets the final text
    and the old tree, which has been told of every record in turn, with the
    start and the new end of the notification at the two ends of [after].
    The changed ranges are those between that tree and the one the parser
    returns. *)
Theorem parser_sees_every_edit (this this' : Tree) (t : TSTree) (edits : list Edit)
  (res : EditResult) :
  tree this = Some t ->
  Tree_edit this edits = (this', Ok res) ->
  exists input_edits raw_tree,
    Forall2 notifies input_edits (applied_edits res)
    /\ ts_parser_parse_string (parser_ this)
         (Some (fold_left ts_tree_edit input_edits t)) (source_ this')
       = Some raw_tree
    /\ tree this' = Some raw_tree
    /\ changed_ranges res
       = _get_changed_ranges (Some (fold_left ts_tree_edit input_edits t)) raw_tree.
Proof.
  intros Ht. unfold Tree_edit, edit_tree, source, parser. rewrite Ht. cbn [source_ parser_].
  destruct (_check_edits (std_sort edit_comp edits)) as [ [] | e ]; cbn [bind];
    [ | discriminate ].
  destruct (_apply_all_edits (std_sort edit_comp edits) (source_ this) (Some t))
    as [ [ [ aes old_tree' ] new_source ] | e ] eqn:E; cbn [bind]; [ | discriminate ].
  apply _apply_all_edits_loop_notifies in E. destruct E as (ies & -> & Hies).
  unfold parse_string.
  destruct (ts_parser_parse_string (parser_ this) (Some (fold_left ts_tree_edit ies t))
              new_source) as [ raw_tree | ] eqn:Eparse; cbn [bind]; [ | discriminate ].
  intros H. injection H as <- <-.
  exists ies, raw_tree. cbn [applied_edits changed_ranges source_ tree raw].
  repeat split; assumption.
Qed.


Lemma _adjust_edit_bytes (edit : Edit) (adjustment : Adjustment) :
  byte (start (range (_adjust_edit edit adjustment)))
  = wrap32 (byte (start (range edit)) + cumulative_byte_change adjustment)
  /\ byte (end_ (range (_adjust_edit edit adjustment)))
     = wrap32 (byte (end_ (range edit)) + cumulative_byte_change adjustment)
  /\ replacement (_adjust_edit edit adjustment) = replacement edit.
Proof.
  unfold _adjust_edit.
  destruct (negb (last_width_change adjustment =? 0)
            && (row (last_point adjustment) =? row (point (start (range edit)))));
    (split; [ reflexivity | split; reflexivity ]).
Qed.

Lemma two_edits_sorted (edits : list Edit) (e1 e2 : Edit) :
  Permutation edits [e1; e2] ->
  byte (start (range e1)) < byte (start (range e2)) ->
  std_sort edit_comp edits = [e1; e2].
Proof.
  intros Hp Hlt.
  assert (Hs : strictly_ascending [e1; e2]).
  { repeat constructor. exact Hlt. }
  assert (Hp' : Permutation (std_sort edit_comp edits) [e1; e2]).
  { eapply perm_trans; [ apply std_sort_perm | exact Hp ]. }
  apply sorted_unique; [ | exact Hs | exact Hp' ].
  apply ascending_strict; [ apply std_sort_ascending | ].
  apply (Permutation_NoDup (l := map start_byte_of [e1; e2])).
  - apply Permutation_map, Permutation_sym, Hp'.
  - apply strictly_ascending_NoDup, Hs.
Qed.

(** Two edits, whatever their rows and the order they were given in. With
    the buffer split as [A ++ O1 ++ B ++ O2 ++ C] at the ends of the two
    ranges, a successful call leaves [A ++ r1 ++ B ++ r2 ++ C], the two
    replacements in place of [O1] and [O2], and the records keep [O1] and
    [O2] as the old texts. *)
Theorem two_edits_splice_both (this this' : Tree) (edits : list Edit) (res : EditResult)
  (e1 e2 : Edit) (A O1 B O2 C : std_string) :
  Tree_edit this edits = (this', Ok res) ->
  Permutation edits [e1; e2] ->
  source_ this = A ++ O1 ++ B ++ O2 ++ C ->
  byte (start (range e1)) = size A ->
  byte (end_ (range e1)) = size A + size O1 ->
  byte (start (range e2)) = size A + size O1 + size B ->
  byte (end_ (range e2)) = size A + size O1 + size B + size O2 ->
  0 < size O1 ->
  size (source_ this) + size (replacement e1) < 2 ^ 31 ->
  source_ this' = A ++ replacement e1 ++ B ++ replacement e2 ++ C
  /\ map old_source (applied_edits res) = [O1; O2]
  /\ map applied_replacement (applied_edits res) = [replacement e1; replacement e2]
  /\ map before (applied_edits res) = [range e1; range e2].
Proof.
  intros H Hp Hsrc Hs1 He1 Hs2 He2 HO1 Hsmall.
  pose proof (size_nonneg A) as HA. pose proof (size_nonneg B) as HB.
  pose proof (size_nonneg O2) as HO2. pose proof (size_nonneg C) as HC.
  pose proof (size_nonneg (replacement e1)) as HR1.
  assert (Hsize : size (source_ this) = size A + size O1 + size B + size O2 + size C).
  { rewrite Hsrc, !size_app. lia. }
  apply Tree_edit_Ok_inv in H.
  destruct H as ( _ & t' & src' & nt & Happly & _ & -> ).
  cbn [source_].
  rewrite (two_edits_sorted edits e1 e2 Hp ltac:(lia)) in Happly.
  unfold _apply_all_edits in Happly.
  apply _apply_all_edits_loop_cons_inv in Happly.
  destruct Happly as ( e1' & x1 & r1 & t1 & aes1 & He1' & Hx1 & Hr1eq & Haes1 & Hloop ).
  rewrite _adjust_edit_init in He1' by lia. subst e1'.
  rewrite Hsrc in Hx1, Hloop.
  destruct (applied_splice e1 A O1 (B ++ O2 ++ C) Hs1 He1 ltac:(lia))
    as ( Hold1 & Hpat1 & Hend1 & _ ).
  rewrite <- Hx1 in Hold1, Hend1. rewrite Hpat1 in Hloop.
  assert (Hrep1 : applied_replacement x1 = replacement e1) by (rewrite Hx1; reflexivity).
  clear Hx1 Hpat1.
  remember (_update_adjustment Adjustment_init r1 (point (end_ (range e1)))) as adj1
    eqn:Hadj1.
  assert (Hcum : cumulative_byte_change adj1 = size (replacement e1) - size O1).
  { rewrite Hadj1, Hr1eq. unfold _update_adjustment.
    cbn [cumulative_byte_change Adjustment_init after before end_ byte].
    rewrite Hend1, to_int_wrap32, Z.add_0_l, He1.
    rewrite (wrap32_small (size A + size (replacement e1))) by lia.
    rewrite (to_int_small (_ - _)) by lia. rewrite to_int_small by lia. lia. }
  clear Hadj1.
  apply _apply_all_edits_loop_cons_inv in Hloop.
  destruct Hloop as ( e2' & x2 & r2 & t2 & aes2 & He2' & Hx2 & Hr2eq & Haes2 & Hloop ).
  destruct (_adjust_edit_bytes e2 adj1) as ( Hb2s & Hb2e & Hr2 ).
  rewrite <- He2', Hcum in Hb2s, Hb2e. rewrite <- He2' in Hr2. clear He2'.
  rewrite wrap32_small in Hb2s by lia. rewrite wrap32_small in Hb2e by lia.
  assert (Hsplit : A ++ replacement e1 ++ B ++ O2 ++ C
                   = (A ++ replacement e1 ++ B) ++ O2 ++ C).
  { rewrite <- !app_assoc. reflexivity. }
  rewrite Hsplit in Hx2, Hloop.
  destruct (applied_splice e2' (A ++ replacement e1 ++ B) O2 C) as ( Hold2 & Hpat2 & _ ).
  { rewrite Hb2s, !size_app. lia. }
  { rewrite Hb2e, !size_app. lia. }
  { lia. }
  rewrite <- Hx2 in Hold2. rewrite Hpat2, Hr2 in Hloop.
  assert (Hrep2 : applied_replacement x2 = replacement e2)
    by (rewrite Hx2; exact Hr2).
  clear Hx2 Hpat2.
  cbn [_apply_all_edits_loop] in Hloop. injection Hloop as <- _ <-.
  rewrite Haes1, Haes2, Hr1eq, Hr2eq.
  cbn [map before old_source applied_replacement].
  rewrite Hold1, Hold2, Hrep1, Hrep2. rewrite <- !app_assoc.
  repeat split.
Qed.

Lemma _adjust_edit_same_row (edit : Edit) (adjustment : Adjustment) :
  row (last_point adjustment) = row (point (start (range edit))) ->
  0 <= column (point (start (range edit))) + last_width_change adjustment < 2 ^ 32 ->
  0 <= column (point (end_ (range edit))) + last_width_change adjustment < 2 ^ 32 ->
  column (point (start (range (_adjust_edit edit adjustment))))
  = column (point (start (range edit))) + last_width_change adjustment
  /\ column (point (end_ (range (_adjust_edit edit adjustment))))
     = column (point (end_ (range edit))) + last_width_change adjustment.
Proof.
  intros Hrow Hs He. unfold _adjust_edit. rewrite Hrow, Z.eqb_refl, andb_true_r.
  destruct (Z.eqb_spec (last_width_change adjustment) 0) as [ H0 | Hne ];
    cbn [negb range start end_ shift_byte shift_column point column].
  - rewrite H0. lia.
  - rewrite !wrap32_small by lia. split; reflexivity.
Qed.

(** The second edit of the sorted batch when the first edit lies on the same
    row: both ends of [after] are the ends of [before] moved, in bytes and in
    columns alike, by the byte delta of the first edit, the end by the edit's
    own delta as well. Columns count bytes along the row. *)
Theorem later_edit_on_same_row (this this' : Tree) (edits : list Edit)
  (res : EditResult) (a1 a2 : AppliedEdit) (rest : list AppliedEdit) :
  Tree_edit this edits = (this', Ok res) ->
  applied_edits res = a1 :: a2 :: rest ->
  (forall e, In e edits -> fits (source_ this) e) ->
  row (point (start (before a1))) = row (point (start (before a2))) ->
  column (point (start (before a2))) - column (point (start (before a1)))
  = byte (start (before a2)) - byte (start (before a1)) ->
  byte (start (after a2)) = byte (start (before a2)) + byte_delta a1
  /\ column (point (start (after a2)))
     = column (point (start (before a2))) + byte_delta a1
  /\ byte (end_ (after a2)) = byte (end_ (before a2)) + byte_delta a1 + byte_delta a2
  /\ column (point (end_ (after a2)))
     = column (point (end_ (before a2))) + byte_delta a1 + byte_delta a2
  /\ row (point (start (after a2))) = row (point (start (before a2)))
  /\ row (point (end_ (after a2))) = row (point (end_ (before a2))).
Proof.
  intros H Hres Hfits Hrow Hcols.
  apply Tree_edit_Ok_inv in H.
  destruct H as ( Hok & t' & src' & nt & Happly & _ ).
  rewrite Hres in Happly.
  pose proof (std_sort_ascending edits) as Hasc.
  assert (HfitsS : forall e, In e (std_sort edit_comp edits) -> fits (source_ this) e).
  { intros e Hin. apply Hfits. apply (Permutation_in _ (std_sort_perm edits)). exact Hin. }
  rewrite _check_edits_Ok in Hok.
  set (src := source_ this) in *.
  generalize dependent (std_sort edit_comp edits). intros sorted Hok Happly Hasc HfitsS.
  pose proof (_apply_all_edits_loop_before _ _ _ _ _ _ _ Happly) as HF.
  inversion HF as [ | ? e1 ? sorted1 [ Hb1 _ ] HF1 ]; subst.
  inversion HF1 as [ | ? e2 ? sorted2 [ Hb2 _ ] HF2 ]; subst.
  clear HF HF1 HF2.
  rewrite Hb1, Hb2 in Hrow, Hcols.
  assert (F1 : fits src e1) by (apply HfitsS; left; reflexivity).
  assert (F2 : fits src e2) by (apply HfitsS; right; left; reflexivity).
  destruct F1 as ( Hse1 & Hle1 & Hc1 & Hw1 & Hsrc & Hr1 ).
  destruct F2 as ( Hse2 & Hle2 & Hc2 & Hw2 & _ & Hr2 ).
  pose proof (size_nonneg (replacement e1)) as Hr1'.
  pose proof (size_nonneg (replacement e2)) as Hr2'.
  destruct (Hok 0%nat e1 eq_refl) as ( _ & Hm1 & Hov1 ).
  specialize (Hov1 1%nat e2 eq_refl (Nat.neq_0_succ 0)).
  assert (Hord : byte (end_ (range e1)) <= byte (start (range e2))).
  { apply no_overlap_ordered; [ unfold nonempty; lia | | exact Hov1 ].
    inversion Hasc as [ | ? ? _ Hall ]; subst.
    inversion Hall as [ | ? ? Hle _ ]; subst. exact Hle. }
  assert (Hrow1 : row (point (end_ (range e1))) = row (point (start (range e1)))).
  { unfold is_multiline in Hm1. apply orb_false_elim in Hm1. destruct Hm1 as [ Hm1 _ ].
    apply negb_false_iff in Hm1. apply Z.eqb_eq in Hm1. symmetry. exact Hm1. }
  clear Hok Hasc HfitsS Hfits Hov1 Hm1.
  unfold _apply_all_edits in Happly.
  apply _apply_all_edits_loop_cons_inv in Happly.
  destruct Happly as ( e1' & x1 & r1 & t1 & aes1 & He1' & Hx1 & Hr1eq & Haes1 & Hloop ).
  rewrite _adjust_edit_init in He1' by lia. subst e1'.
  injection Haes1 as Ha1 Haes1. subst aes1.
  destruct (applied_exact e1 src) as ( He1 & Hcol1 & Hold1 ); try lia.
  assert (Hrep1 : applied_replacement x1 = replacement e1) by (rewrite Hx1; reflexivity).
  assert (Hst1 : start (after x1) = start (range e1)) by (rewrite Hx1; reflexivity).
  rewrite <- Hx1 in He1, Hcol1, Hold1. clear Hx1.
  remember (_update_adjustment Adjustment_init r1 (point (end_ (range e1)))) as adj1
    eqn:Hadj1.
  remember (size (replacement e1)
            - (byte (end_ (range e1)) - byte (start (range e1)))) as d1 eqn:Hd1.
  assert (Hcum : cumulative_byte_change adj1 = d1).
  { rewrite Hadj1, Hr1eq. unfold _update_adjustment.
    cbn [cumulative_byte_change Adjustment_init after before end_ byte].
    rewrite He1, to_int_wrap32, Z.add_0_l.
    rewrite (to_int_small (_ - _)) by lia. rewrite to_int_small by lia. lia. }
  assert (Hlwc : last_width_change adj1 = d1).
  { rewrite Hadj1, Hr1eq. unfold _update_adjustment.
    cbn [last_width_change after before].
    rewrite Hcol1, Hst1, !to_int_wrap32.
    rewrite (to_int_small (column (point (start (range e1))) + size (replacement e1)
                           - column (point (start (range e1))))) by lia.
    rewrite (to_int_small (column (point (end_ (range e1)))
                           - column (point (start (range e1))))) by lia.
    rewrite to_int_small by lia. lia. }
  assert (Hlast : row (last_point adj1) = row (point (start (range e2)))).
  { rewrite Hadj1. unfold _update_adjustment. cbn [last_point].
    rewrite Hrow1. exact Hrow. }
  clear Hadj1.
  apply _apply_all_edits_loop_cons_inv in Hloop.
  destruct Hloop as ( e2' & x2 & r2 & t2 & aes2 & He2' & Hx2 & Hr2eq & Haes2 & _ ).
  injection Haes2 as Ha2 _.
  destruct (_adjust_edit_bytes e2 adj1) as ( Hs2 & Hn2 & Hrep2 ).
  destruct (_adjust_edit_rows e2 adj1) as [ Hrs2 Hre2 ].
  destruct (_adjust_edit_same_row e2 adj1 Hlast) as [ Hcs2 Hce2 ];
    [ rewrite Hlwc; lia | rewrite Hlwc; lia | ].
  rewrite <- He2' in Hs2, Hn2, Hrep2, Hrs2, Hre2, Hcs2, Hce2. clear He2'.
  rewrite Hcum in Hs2, Hn2. rewrite Hlwc in Hcs2, Hce2.
  rewrite wrap32_small in Hs2 by lia. rewrite wrap32_small in Hn2 by lia.
  pose proof (size_patched e1 src ltac:(lia) ltac:(lia) ltac:(lia)) as Hsize1.
  destruct (applied_exact e2' (patched e1 src)) as ( He2 & Hcol2 & Hold2 );
    rewrite ?Hs2, ?Hn2, ?Hcs2, ?Hce2, ?Hrep2; try lia.
  assert (Hst2 : start (after x2) = start (range e2')) by (rewrite Hx2; reflexivity).
  assert (Hrw2 : row (point (end_ (after x2))) = row (point (end_ (range e2'))))
    by (rewrite Hx2; reflexivity).
  assert (Hrep2' : applied_replacement x2 = replacement e2')
    by (rewrite Hx2; reflexivity).
  rewrite <- Hx2 in He2, Hcol2, Hold2. clear Hx2.
  rewrite Ha1, Ha2, Hr1eq, Hr2eq. unfold byte_delta.
  cbn [before after old_source applied_replacement].
  rewrite Hold1, Hold2, He2, Hcol2, Hst2, Hrw2, Hrep1, Hrep2', Hrep2, Hs2, Hcs2, Hrs2, Hre2.
  repeat split; lia.
Qed.

(** Whatever the ranges are, the records of a successful batch come with
    non-decreasing original start bytes. *)
Theorem applied_edits_nondecreasing (this this' : Tree) (edits : list Edit)
  (res : EditResult) :
  Tree_edit this edits = (this', Ok res) ->
  forall i j a b,
    (i < j)%nat ->
    nth_error (applied_edits res) i = Some a ->
    nth_error (applied_edits res) j = Some b ->
    byte (start (before a)) <= byte (start (before b)).
Proof.
  intros H i j a b Hij Ha Hb.
  apply Tree_edit_Ok_inv in H.
  destruct H as ( _ & t' & src' & nt & Happly & _ ).
  apply _apply_all_edits_loop_before in Happly.
  destruct (Forall2_nth_error_l _ _ _ Happly i a Ha) as (e1 & He1 & Hb1 & _).
  destruct (Forall2_nth_error_l _ _ _ Happly j b Hb) as (e2 & He2 & Hb2 & _).
  rewrite Hb1, Hb2.
  apply (ascending_nth (std_sort edit_comp edits) i j e1 e2); try assumption.
  apply std_sort_ascending.
Qed.

End Engine.

(** * Runs of the model on the trace engine *)

Abbreviation run :=
  (Tree_edit Trace.TSTree Trace.TSParser Trace.ts_tree_edit
             Trace.ts_parser_parse_string Trace.ts_tree_get_changed_ranges).

Abbreviation document s :=
  {| tree := @Some Trace.TSTree []; source_ := s; parser_ := tt |}.

(** The cases of [tests/unit_tests.cpp], "trees can be edited". *)

Example test_changing_an_integer_literal :
  exists this' res,
    run (document (bytes "1 + 2")) [replace_at 0 0 0 1 "15"] = (this', Ok res)
    /\ source_ _ _ this' = bytes "15 + 2"
    /\ map after (applied_edits res)
       = [mkRange (mkLocation 0 0 0) (mkLocation 0 2 2)].
Proof. do 2 eexists. split; [ vm_compute; reflexivity | split; reflexivity ]. Qed.

Example test_changing_literals_over_multiple_lines :
  let source :=
    bytes "local a = 1" ++ [newline] ++ bytes "local b = 2" ++ [newline]
    ++ bytes "return a + b" in
  let expected :=
    bytes "local a = 15" ++ [newline] ++ bytes "local b = 7" ++ [newline]
    ++ bytes "return a + b" in
  let edit_one := replace_at 0 10 10 1 "15" in
  let edit_two := replace_at 1 10 22 1 "7" in
  exists this' ranges,
    run (document source) [edit_two; edit_one]
    = (this',
       Ok {| changed_ranges := ranges;
             applied_edits :=
               [ {| before := range edit_one;
                    after := mkRange (mkLocation 0 10 10) (mkLocation 0 12 12);
                    old_source := bytes "1";
                    applied_replacement := bytes "15" |};
                 {| before := range edit_two;
                    after := mkRange (mkLocation 1 10 23) (mkLocation 1 11 24);
                    old_source := bytes "2";
                    applied_replacement := bytes "7" |} ] |})
    /\ source_ _ _ this' = expected.
Proof. do 2 eexists. split; [ vm_compute; reflexivity | reflexivity ]. Qed.

Example test_multiline_edit :
  snd (run (document (bytes "1 + 2"))
           [ {| range := range (replace_at 0 0 0 1 "");
                replacement := bytes "3 +" ++ [newline] ++ bytes " 4" |} ])
  = Throw MultilineEditException.
Proof. reflexivity. Qed.

Example test_overlapping_edits :
  let edit := replace_at 0 0 0 2 "33" in
  let edit2 := replace_at 0 1 1 1 "44" in
  snd (run (document (bytes "11 + 2")) [edit; edit]) = Throw OverlappingEditException
  /\ snd (run (document (bytes "11 + 2")) [edit; edit2]) = Throw OverlappingEditException.
Proof. split; reflexivity. Qed.

(** Claim C2 as it is written fails at the end of [after]. On the buffer of
    the two lines "a" and "b", the batch that replaces "a" by "xx" and "b" by
    "yyy" moves the second edit from bytes 2..3, columns 0..1, to bytes 3..6,
    columns 0..3: the end is past [before] plus the delta of the first edit,
    and the end column has changed. *)
Lemma later_edit_end_moves_by_own_delta :
  let source := bytes "a" ++ [newline] ++ bytes "b" in
  let batch := [replace_at 0 0 0 1 "xx"; replace_at 1 0 2 1 "yyy"] in
  exists this' ranges a1 a2,
    run (document source) batch
    = (this', Ok {| changed_ranges := ranges; applied_edits := [a1; a2] |})
    /\ row (point (start (before a1))) <> row (point (start (before a2)))
    /\ byte (end_ (before a2)) = 3 /\ byte (end_ (after a2)) = 6
    /\ column (point (end_ (before a2))) = 1 /\ column (point (end_ (after a2))) = 3
    /\ ~ shifted_by_earlier_only [a1] a2.
Proof.
  do 4 eexists. split; [ vm_compute; reflexivity | ].
  repeat split; try discriminate.
  unfold shifted_by_earlier_only. vm_compute. intros ( _ & H & _ ). discriminate.
Qed.

Lemma later_edit_on_other_row_witness :
  let source := bytes "a" ++ [newline] ++ bytes "b" in
  let batch := [replace_at 1 0 2 1 "yyy"; replace_at 0 0 0 1 "xx"] in
  exists a1 a2,
    applied_edits_of (run (document source) batch) = [a1; a2]
    /\ byte (start (after a2)) = byte (start (before a2)) + byte_delta a1
    /\ byte (end_ (after a2)) = byte (end_ (before a2)) + byte_delta a1 + byte_delta a2
    /\ point (start (after a2)) = point (start (before a2))
    /\ row (point (end_ (after a2))) = row (point (end_ (before a2)))
    /\ column (point (end_ (after a2))) = column (point (end_ (before a2))) + byte_delta a2.
Proof.
  do 2 eexists. split; [ vm_compute; reflexivity | ].
  eapply (later_edit_on_other_row Trace.TSTree Trace.TSParser Trace.ts_tree_edit
            Trace.ts_parser_parse_string Trace.ts_tree_get_changed_ranges
            (document (bytes "a" ++ [newline] ++ bytes "b")) _
            [replace_at 1 0 2 1 "yyy"; replace_at 0 0 0 1 "xx"]).
  - vm_compute. reflexivity.
  - vm_compute. reflexivity.
  - intros e [ <- | [ <- | [] ] ]; unfold fits; vm_compute;
      repeat split; intros; discriminate.
  - vm_compute. discriminate.
Defined.

Lemma applied_edit_before_is_supplied_range_witness :
  let batch := [replace_at 0 4 4 1 "7"; replace_at 0 0 0 1 "15"] in
  exists this' res,
    run (document (bytes "1 + 2")) batch = (this', Ok res)
    /\ Forall2 (fun a e => before a = range e /\ applied_replacement a = replacement e)
               (applied_edits res) (std_sort edit_comp batch)
    /\ Permutation (std_sort edit_comp batch) batch.
Proof.
  do 2 eexists. split; [ vm_compute; reflexivity | ].
  eapply (applied_edit_before_is_supplied_range Trace.TSTree Trace.TSParser
           Trace.ts_tree_edit Trace.ts_parser_parse_string
           Trace.ts_tree_get_changed_ranges (document (bytes "1 + 2")) _
           [replace_at 0 4 4 1 "7"; replace_at 0 0 0 1 "15"]).
  vm_compute. reflexivity.
Defined.

(** Claim C6 as it is written fails on ranges that hold no byte. On the
    buffer "abcdef" the two edits below both start and end at byte 3, on
    different columns; neither is zero-sized for the validator, which compares
    the points too, and neither overlaps the other. The call succeeds and
    both records have [before] starting at byte 3. *)
Lemma applied_edits_tie_on_byte_empty_ranges :
  let e1 := {| range := mkRange (mkLocation 0 0 3) (mkLocation 0 1 3);
               replacement := bytes "X" |} in
  let e2 := {| range := mkRange (mkLocation 0 5 3) (mkLocation 0 6 3);
               replacement := bytes "Y" |} in
  exists this' res a b,
    run (document (bytes "abcdef")) [e1; e2] = (this', Ok res)
    /\ nth_error (applied_edits res) 0 = Some a
    /\ nth_error (applied_edits res) 1 = Some b
    /\ byte (start (before a)) = 3
    /\ byte (start (before b)) = 3
    /\ ~ byte (start (before a)) < byte (start (before b)).
Proof.
  do 4 eexists. split; [ vm_compute; reflexivity | ].
  split; [ reflexivity | ]. split; [ reflexivity | ].
  split; [ reflexivity | ]. split; [ reflexivity | ].
  vm_compute. discriminate.
Qed.

Lemma applied_edits_in_sorted_order_witness :
  let batch := [replace_at 0 4 4 1 "7"; replace_at 0 0 0 1 "15"] in
  exists a b,
    applied_edits_of (run (document (bytes "1 + 2")) batch) = [a; b]
    /\ byte (start (before a)) <= byte (start (before b))
    /\ ((forall e, In e batch -> well_formed (range e)) ->
        byte (start (before a)) < byte (start (before b))).
Proof.
  do 2 eexists. split; [ vm_compute; reflexivity | ].
  eapply (applied_edits_in_sorted_order Trace.TSTree Trace.TSParser
            Trace.ts_tree_edit Trace.ts_parser_parse_string
            Trace.ts_tree_get_changed_ranges)
    with (this := document (bytes "1 + 2"))
         (edits := [replace_at 0 4 4 1 "7"; replace_at 0 0 0 1 "15"])
         (i := 0%nat) (j := 1%nat).
  - vm_compute. reflexivity.
  - lia.
  - reflexivity.
  - reflexivity.
Defined.

Lemma edit_tree_submission_order_witness :
  let edit_one := replace_at 0 0 0 1 "15" in
  let edit_two := replace_at 0 4 4 1 "7" in
  run (document (bytes "1 + 2")) [edit_two; edit_one]
  = run (document (bytes "1 + 2")) [edit_one; edit_two]
  /\ source_ _ _ (fst (run (document (bytes "1 + 2")) [edit_two; edit_one]))
     = source_ _ _ (fst (run (document (bytes "1 + 2")) [edit_one; edit_two])).
Proof.
  apply (edit_tree_submission_order Trace.TSTree Trace.TSParser
           Trace.ts_tree_edit Trace.ts_parser_parse_string
           Trace.ts_tree_get_changed_ranges (document (bytes "1 + 2"))
           [replace_at 0 0 0 1 "15"; replace_at 0 4 4 1 "7"]
           [replace_at 0 4 4 1 "7"; replace_at 0 0 0 1 "15"]).
  - apply perm_swap.
  - intros e [ <- | [ <- | [] ] ]; split; vm_compute; intros; discriminate.
  - vm_compute. reflexivity.
Defined.

Lemma scenario_two_literals_witness :
  exists raw_tree ranges a1 a2,
    run (document (bytes "1 + 2")) [replace_at 0 4 4 1 "7"; replace_at 0 0 0 1 "15"]
    = ({| tree := Some raw_tree; source_ := bytes "15 + 7"; parser_ := tt |},
       Ok {| changed_ranges := ranges; applied_edits := [a1; a2] |})
    /\ byte (start (before a2)) = 4 /\ byte (end_ (before a2)) = 5
    /\ byte (start (after a2)) = 5 /\ byte (end_ (after a2)) = 6.
Proof.
  apply (scenario_two_literals Trace.TSTree Trace.TSParser
           Trace.ts_tree_edit Trace.ts_parser_parse_string
           Trace.ts_tree_get_changed_ranges [] tt
           [replace_at 0 4 4 1 "7"; replace_at 0 0 0 1 "15"]).
  - intros old_tree src. discriminate.
  - right. reflexivity.
Defined.

(** * Runs for the further properties *)

Lemma overlaps_iff_common_byte_witness :
  overlaps (mkRange (mkLocation 0 1 1) (mkLocation 0 4 4))
           (mkRange (mkLocation 0 3 3) (mkLocation 0 6 6)) = true
  <-> exists x, 1 <= x < 4 /\ 3 <= x < 6.
Proof.
  apply (overlaps_iff_common_byte
           (mkRange (mkLocation 0 1 1) (mkLocation 0 4 4))
           (mkRange (mkLocation 0 3 3) (mkLocation 0 6 6)));
    unfold nonempty; simpl; lia.
Defined.

(** * [Match::capture_with_index] ([src/tree_sitter.cpp], lines 730-737) *)

Section Query.

(** A node handle; the search below does not look into it. *)
Variable Node : Type.

Record Capture : Type := { node : Node; index : Z }.

Record Match : Type := {
  id : Z;
  pattern_index : Z;
  captures : list Capture
}.

(** The loop [for (const auto& capture : this->captures)]. *)
Fixpoint capture_with_index_loop (rest : list Capture) (i : Z) : option Capture :=
  match rest with
  | [] => None
  | capture :: rest' =>
      if index capture =? i then Some capture else capture_with_index_loop rest' i
  end.

Definition capture_with_index (m : Match) (i : Z) : option Capture :=
  capture_with_index_loop (captures m) i.

Lemma capture_with_index_loop_Some (rest : list Capture) (i : Z) (c : Capture) :
  capture_with_index_loop rest i = Some c <->
  exists k, nth_error rest k = Some c /\ index c = i
            /\ forall j c', (j < k)%nat -> nth_error rest j = Some c' -> index c' <> i.
Proof.
  induction rest as [ | c0 rest IH ]; simpl.
  - split; [ discriminate | ]. intros ([ | k ] & H & _); discriminate.
  - destruct (Z.eqb_spec (index c0) i) as [ Heq | Hne ].
    + split.
      * intros H. injection H as <-. exists 0%nat.
        split; [ reflexivity | split; [ exact Heq | ] ]. intros j c' Hj. lia.
      * intros ([ | k ] & Hk & Hi & Hfirst); simpl in Hk.
        -- congruence.
        -- exfalso. apply (Hfirst 0%nat c0); [ lia | reflexivity | exact Heq ].
    + rewrite IH. split.
      * intros (k & Hk & Hi & Hfirst). exists (S k).
        split; [ exact Hk | split; [ exact Hi | ] ].
        intros [ | j ] c' Hj Hc'; simpl in Hc'.
        -- injection Hc' as <-. exact Hne.
        -- apply (Hfirst j c'); [ lia | exact Hc' ].
      * intros ([ | k ] & Hk & Hi & Hfirst); simpl in Hk.
        -- injection Hk as <-. contradiction.
        -- exists k. split; [ exact Hk | split; [ exact Hi | ] ].
           intros j c' Hj Hc'. apply (Hfirst (S j) c'); [ lia | exact Hc' ].
Qed.

(** [capture_with_index] returns the first capture of the match that has the
    index asked for, and nothing exactly when no capture has it. *)
Theorem capture_with_index_is_first (m : Match) (i : Z) :
  (forall c, capture_with_index m i = Some c <->
             exists k, nth_error (captures m) k = Some c /\ index c = i
                       /\ forall j c', (j < k)%nat -> nth_error (captures m) j = Some c' ->
                                       index c' <> i)
  /\ (capture_with_index m i = None <->
      forall c, In c (captures m) -> index c <> i).
Proof.
  unfold capture_with_index. split.
  - intros c. apply capture_with_index_loop_Some.
  - induction (captures m) as [ | c0 rest IH ]; simpl.
    + split; [ intros _ c [] | reflexivity ].
    + destruct (Z.eqb_spec (index c0) i) as [ Heq | Hne ].
      * split; [ discriminate | ]. intros H. exfalso.
        apply (H c0); [ left; reflexivity | exact Heq ].
      * rewrite IH. split.
        -- intros H c [ <- | Hc ]; [ exact Hne | apply H; exact Hc ].
        -- intros H c Hc. apply H. right. exact Hc.
Qed.

End Query.

(** * [Cursor::skip_n_siblings] ([src/tree_sitter.cpp], lines 552-560) *)

Section Cursor.

(** The state of a [TSTreeCursor] and the library call that moves it to the
    next sibling and says whether there was one. *)
Variable TSTreeCursor : Type.
Variable ts_tree_cursor_goto_next_sibling : TSTreeCursor -> bool * TSTreeCursor.

(** The loop [for (; i < n; ++i)] with [left] turns to go. *)
Fixpoint skip_n_siblings_loop (left : nat) (i : Z) (cursor : TSTreeCursor)
  : Z * TSTreeCursor :=
  match left with
  | O => (i, cursor)
  | S left' =>
      let (moved, cursor') := ts_tree_cursor_goto_next_sibling cursor in
      if moved then skip_n_siblings_loop left' (i + 1) cursor' else (i, cursor')
  end.

(** Returns the count and the cursor after the call. *)
Definition skip_n_siblings (cursor : TSTreeCursor) (n : Z) : Z * TSTreeCursor :=
  skip_n_siblings_loop (Z.to_nat n) 0 cursor.

(** The cursor after [k] moves to the next sibling. *)
Fixpoint moved_by (k : nat) (cursor : TSTreeCursor) : TSTreeCursor :=
  match k with
  | O => cursor
  | S k' => moved_by k' (snd (ts_tree_cursor_goto_next_sibling cursor))
  end.

(** The [k] moves from [cursor] all find a sibling. *)
Fixpoint all_moved (k : nat) (cursor : TSTreeCursor) : bool :=
  match k with
  | O => true
  | S k' =>
      fst (ts_tree_cursor_goto_next_sibling cursor)
      && all_moved k' (snd (ts_tree_cursor_goto_next_sibling cursor))
  end.

Lemma skip_n_siblings_loop_spec (left : nat) (i : Z) (cursor : TSTreeCursor) :
  exists k, (k <= left)%nat
            /\ fst (skip_n_siblings_loop left i cursor) = i + Z.of_nat k
            /\ all_moved k cursor = true
            /\ ((k < left)%nat ->
                fst (ts_tree_cursor_goto_next_sibling (moved_by k cursor)) = false
                /\ snd (skip_n_siblings_loop left i cursor)
                   = snd (ts_tree_cursor_goto_next_sibling (moved_by k cursor)))
            /\ (k = left -> snd (skip_n_siblings_loop left i cursor) = moved_by k cursor).
Proof.
  revert i cursor. induction left as [ | left IH ]; intros i cursor; simpl.
  - exists 0%nat. simpl. repeat split; try lia.
  - destruct (ts_tree_cursor_goto_next_sibling cursor) as [ [ | ] cursor' ] eqn:E.
    + destruct (IH (i + 1) cursor') as (k & Hk & Hres & Hall & Hstop & Hfull).
      exists (S k). simpl. rewrite E. simpl.
      split; [ lia | ]. split; [ rewrite Hres; lia | ]. split; [ exact Hall | ].
      split.
      * intros Hlt. apply Hstop. lia.
      * intros Heq. apply Hfull. lia.
    + exists 0%nat. simpl. rewrite E. simpl.
      split; [ lia | ]. split; [ lia | ]. split; [ reflexivity | ].
      split; [ intros _; split; reflexivity | intros H; discriminate ].
Qed.

(** [skip_n_siblings] returns how many siblings it moved over: a number
    between 0 and [n] (0 when [n] is negative); that many moves found a
    sibling, and when the number is below [n] the next move found none. *)
Theorem skip_n_siblings_counts_moves (cursor : TSTreeCursor) (n : Z) :
  exists k,
    fst (skip_n_siblings cursor n) = Z.of_nat k
    /\ 0 <= Z.of_nat k <= Z.max 0 n
    /\ all_moved k cursor = true
    /\ (Z.of_nat k < n ->
        fst (ts_tree_cursor_goto_next_sibling (moved_by k cursor)) = false)
    /\ (Z.of_nat k = Z.max 0 n -> snd (skip_n_siblings cursor n) = moved_by k cursor).
Proof.
  unfold skip_n_siblings.
  destruct (skip_n_siblings_loop_spec (Z.to_nat n) 0 cursor)
    as (k & Hk & Hres & Hall & Hstop & Hfull).
  exists k. split; [ rewrite Hres; lia | ]. split; [ lia | ].
  split; [ exact Hall | ]. split.
  - intros Hlt. apply Hstop. lia.
  - intros Heq. apply Hfull. lia.
Qed.

End Cursor.

(** * Runs for the properties of the batch *)

Lemma validation_accepts_regardless_of_order_witness :
  let e1 := replace_at 0 0 0 1 "15" in
  let e2 := replace_at 0 4 4 1 "7" in
  (_check_edits [e1; e2] = Ok tt <-> _check_edits [e2; e1] = Ok tt)
  /\ (_check_edits (std_sort edit_comp [e1; e2]) = Ok tt <-> _check_edits [e1; e2] = Ok tt).
Proof.
  apply (validation_accepts_regardless_of_order
           [replace_at 0 0 0 1 "15"; replace_at 0 4 4 1 "7"]
           [replace_at 0 4 4 1 "7"; replace_at 0 0 0 1 "15"]).
  apply perm_swap.
Defined.

Lemma duplicate_edit_is_rejected_witness :
  let edit := replace_at 0 0 0 2 "33" in
  overlaps (range edit) (range edit) = true /\ _check_edits [edit; edit] <> Ok tt.
Proof.
  apply (duplicate_edit_is_rejected
           [replace_at 0 0 0 2 "33"; replace_at 0 0 0 2 "33"] 0 1
           (replace_at 0 0 0 2 "33")).
  - discriminate.
  - reflexivity.
  - reflexivity.
  - unfold nonempty. simpl. lia.
Defined.


Lemma _apply_edit_splices_witness :
  exists a t',
    _apply_edit Trace.TSTree Trace.ts_tree_edit (replace_at 0 4 4 1 "73") (Some [])
                (bytes "1 + " ++ bytes "2" ++ bytes " + 3")
    = Ok (a, Some t', bytes "1 + " ++ bytes "73" ++ bytes " + 3")
    /\ before a = range (replace_at 0 4 4 1 "73")
    /\ old_source a = bytes "2"
    /\ applied_replacement a = bytes "73"
    /\ start (after a) = mkLocation 0 4 4
    /\ byte (end_ (after a)) = 4 + 2
    /\ row (point (end_ (after a))) = 0.
Proof.
  apply (_apply_edit_splices Trace.TSTree Trace.ts_tree_edit
           (replace_at 0 4 4 1 "73") [] (bytes "1 + ") (bytes "2") (bytes " + 3"));
    vm_compute; reflexivity.
Defined.

Lemma _apply_edit_undo_witness :
  exists a t1 a' t2,
    _apply_edit Trace.TSTree Trace.ts_tree_edit (replace_at 0 4 4 1 "73") (Some [])
                (bytes "1 + " ++ bytes "2" ++ bytes " + 3")
    = Ok (a, Some t1, bytes "1 + " ++ bytes "73" ++ bytes " + 3")
    /\ _apply_edit Trace.TSTree Trace.ts_tree_edit (undo a) (Some t1)
                   (bytes "1 + " ++ bytes "73" ++ bytes " + 3")
       = Ok (a', Some t2, bytes "1 + " ++ bytes "2" ++ bytes " + 3")
    /\ before a' = after a
    /\ after a' = before a
    /\ old_source a' = applied_replacement a
    /\ applied_replacement a' = old_source a.
Proof.
  apply (_apply_edit_undo Trace.TSTree Trace.ts_tree_edit
           (replace_at 0 4 4 1 "73") [] (bytes "1 + ") (bytes "2") (bytes " + 3"));
    try (vm_compute; reflexivity).
  split; vm_compute; [ discriminate | reflexivity ].
Defined.

Lemma _apply_edit_clamps_at_the_end_witness :
  let edit := replace_at 0 4 4 5 "x" in
  exists a t',
    _apply_edit Trace.TSTree Trace.ts_tree_edit edit (Some []) (bytes "1 + 2")
    = Ok (a, Some t', firstn (Z.to_nat 4) (bytes "1 + 2") ++ bytes "x")
    /\ old_source a = skipn (Z.to_nat 4) (bytes "1 + 2")
    /\ size (old_source a) < 9 - 4.
Proof.
  apply (_apply_edit_clamps_at_the_end Trace.TSTree Trace.ts_tree_edit
           (replace_at 0 4 4 5 "x") [] (bytes "1 + 2"));
    split; vm_compute; first [ reflexivity | discriminate ].
Defined.

Lemma edit_past_the_end_throws_witness :
  let edit := replace_at 0 9 9 1 "x" in
  _apply_edit Trace.TSTree Trace.ts_tree_edit edit (Some []) (bytes "1 + 2")
  = Throw out_of_range
  /\ run (document (bytes "1 + 2")) [edit]
     = ({| tree := None; source_ := bytes "1 + 2"; parser_ := tt |}, Throw out_of_range).
Proof.
  apply (edit_past_the_end_throws Trace.TSTree Trace.TSParser Trace.ts_tree_edit
           Trace.ts_parser_parse_string Trace.ts_tree_get_changed_ranges
           (document (bytes "1 + 2")) [replace_at 0 9 9 1 "x"] []
           (replace_at 0 9 9 1 "x")).
  - reflexivity.
  - reflexivity.
  - split; vm_compute; [ discriminate | reflexivity ].
  - split; vm_compute; [ discriminate | reflexivity ].
  - vm_compute. reflexivity.
Defined.

Lemma applied_edits_stay_on_their_row_witness :
  let batch := [replace_at 0 4 4 1 "7"; replace_at 0 0 0 1 "15"] in
  exists this' res,
    run (document (bytes "1 + 2")) batch = (this', Ok res)
    /\ length (applied_edits res) = length batch
    /\ Forall (fun a => row (point (end_ (before a))) = row (point (start (before a)))
                        /\ row (point (start (after a))) = row (point (start (before a)))
                        /\ row (point (end_ (after a))) = row (point (start (before a))))
              (applied_edits res).
Proof.
  do 2 eexists. split; [ vm_compute; reflexivity | ].
  eapply (applied_edits_stay_on_their_row Trace.TSTree Trace.TSParser
            Trace.ts_tree_edit Trace.ts_parser_parse_string
            Trace.ts_tree_get_changed_ranges (document (bytes "1 + 2")) _
            [replace_at 0 4 4 1 "7"; replace_at 0 0 0 1 "15"]).
  vm_compute. reflexivity.
Defined.

Lemma parser_sees_every_edit_witness :
  let batch := [replace_at 0 4 4 1 "7"; replace_at 0 0 0 1 "15"] in
  exists this' res input_edits raw_tree,
    run (document (bytes "1 + 2")) batch = (this', Ok res)
    /\ Forall2 notifies input_edits (applied_edits res)
    /\ Trace.ts_parser_parse_string tt
         (Some (fold_left Trace.ts_tree_edit input_edits [])) (source_ _ _ this')
       = Some raw_tree
    /\ tree _ _ this' = Some raw_tree
    /\ changed_ranges res
       = _get_changed_ranges Trace.TSTree Trace.ts_tree_get_changed_ranges
           (Some (fold_left Trace.ts_tree_edit input_edits [])) raw_tree.
Proof.
  assert (H : run (document (bytes "1 + 2"))
                  [replace_at 0 4 4 1 "7"; replace_at 0 0 0 1 "15"]
              = (fst (run (document (bytes "1 + 2"))
                          [replace_at 0 4 4 1 "7"; replace_at 0 0 0 1 "15"]),
                 Ok {| changed_ranges := [];
                       applied_edits :=
                         applied_edits_of
                           (run (document (bytes "1 + 2"))
                                [replace_at 0 4 4 1 "7"; replace_at 0 0 0 1 "15"]) |}))
    by (vm_compute; reflexivity).
  destruct (parser_sees_every_edit Trace.TSTree Trace.TSParser
              Trace.ts_tree_edit Trace.ts_parser_parse_string
              Trace.ts_tree_get_changed_ranges
              (document (bytes "1 + 2")) _ [] _ _ eq_refl H)
    as (input_edits & raw_tree & Hrest).
  exists (fst (run (document (bytes "1 + 2"))
                   [replace_at 0 4 4 1 "7"; replace_at 0 0 0 1 "15"])).
  eexists. exists input_edits, raw_tree.
  split; [ exact H | exact Hrest ].
Defined.

Lemma two_edits_splice_both_witness :
  let e1 := replace_at 0 0 0 1 "15" in
  let e2 := replace_at 0 4 4 1 "7" in
  exists this' res,
    run (document (bytes "1 + 2")) [e2; e1] = (this', Ok res)
    /\ source_ _ _ this' = [] ++ bytes "15" ++ bytes " + " ++ bytes "7" ++ []
    /\ map old_source (applied_edits res) = [bytes "1"; bytes "2"]
    /\ map applied_replacement (applied_edits res) = [bytes "15"; bytes "7"]
    /\ map before (applied_edits res) = [range e1; range e2].
Proof.
  do 2 eexists. split; [ vm_compute; reflexivity | ].
  eapply (two_edits_splice_both Trace.TSTree Trace.TSParser
            Trace.ts_tree_edit Trace.ts_parser_parse_string
            Trace.ts_tree_get_changed_ranges (document (bytes "1 + 2")) _
            [replace_at 0 4 4 1 "7"; replace_at 0 0 0 1 "15"] _
            (replace_at 0 0 0 1 "15") (replace_at 0 4 4 1 "7")
            [] (bytes "1") (bytes " + ") (bytes "2") []).
  - vm_compute. reflexivity.
  - apply perm_swap.
  - reflexivity.
  - reflexivity.
  - reflexivity.
  - reflexivity.
  - reflexivity.
  - vm_compute. reflexivity.
  - vm_compute. reflexivity.
Defined.

Lemma later_edit_on_same_row_witness :
  let batch := [replace_at 0 4 4 1 "78"; replace_at 0 0 0 1 "15"] in
  exists a1 a2,
    applied_edits_of (run (document (bytes "1 + 2")) batch) = [a1; a2]
    /\ byte (start (after a2)) = byte (start (before a2)) + byte_delta a1
    /\ column (point (start (after a2)))
       = column (point (start (before a2))) + byte_delta a1
    /\ byte (end_ (after a2)) = byte (end_ (before a2)) + byte_delta a1 + byte_delta a2
    /\ column (point (end_ (after a2)))
       = column (point (end_ (before a2))) + byte_delta a1 + byte_delta a2
    /\ row (point (start (after a2))) = row (point (start (before a2)))
    /\ row (point (end_ (after a2))) = row (point (end_ (before a2))).
Proof.
  do 2 eexists. split; [ vm_compute; reflexivity | ].
  eapply (later_edit_on_same_row Trace.TSTree Trace.TSParser Trace.ts_tree_edit
            Trace.ts_parser_parse_string Trace.ts_tree_get_changed_ranges
            (document (bytes "1 + 2")) _
            [replace_at 0 4 4 1 "78"; replace_at 0 0 0 1 "15"]).
  - vm_compute. reflexivity.
  - vm_compute. reflexivity.
  - intros e [ <- | [ <- | [] ] ]; unfold fits; vm_compute;
      repeat split; intros; discriminate.
  - reflexivity.
  - reflexivity.
Defined.


Lemma applied_edits_nondecreasing_witness :
  let batch := [replace_at 0 4 4 1 "7"; replace_at 0 0 0 1 "15"] in
  exists a b,
    applied_edits_of (run (document (bytes "1 + 2")) batch) = [a; b]
    /\ byte (start (before a)) <= byte (start (before b)).
Proof.
  do 2 eexists. split; [ vm_compute; reflexivity | ].
  eapply (applied_edits_nondecreasing Trace.TSTree Trace.TSParser
            Trace.ts_tree_edit Trace.ts_parser_parse_string
            Trace.ts_tree_get_changed_ranges)
    with (this := document (bytes "1 + 2"))
         (edits := [replace_at 0 4 4 1 "7"; replace_at 0 0 0 1 "15"])
         (i := 0%nat) (j := 1%nat).
  - vm_compute. reflexivity.
  - lia.
  - reflexivity.
  - reflexivity.
Defined.

Lemma overlaps_symmetric_between_nonempty_ranges_witness :
  let a := mkRange (mkLocation 0 0 0) (mkLocation 0 2 2) in
  let b := mkRange (mkLocation 0 2 2) (mkLocation 0 4 4) in
  overlaps a b = overlaps b a
  /\ (byte (end_ a) = byte (start b) -> overlaps a b = false /\ overlaps b a = false).
Proof.
  apply (overlaps_symmetric_between_nonempty_ranges
           (mkRange (mkLocation 0 0 0) (mkLocation 0 2 2))
           (mkRange (mkLocation 0 2 2) (mkLocation 0 4 4)));
    unfold nonempty; simpl; lia.
Defined.
